(** * ESP32-CAM-EYES: the light-source localisation pipeline

    A shallow embedding of [find_light_source] and of the union-find helpers
    it uses ([dsu_init], [dsu_find], [dsu_unite]) from [ESP32-CAM-EYES.ino],
    with the properties of the pipeline proved over it.

    Conventions of the embedding.
    - C [int] values are mathematical integers ([Z]); the narrowing stores
      the source performs ([uint8_t], [uint16_t], [uint32_t]) are written
      out with [Z.land], [Z.shiftl], [Z.shiftr] and [mod].
    - A C array is a [list]; reading or writing outside of it is a fault,
      modelled by [None].
    - [float] is IEEE-754 binary32, computed with the operations of
      [SpecFloat] at precision 24 and maximal exponent 128.
    - The recursion of [dsu_find] is bounded by a fuel argument; running out
      of fuel is a fault as well. *)

From Stdlib Require Import ZArith Lia Bool.
From Stdlib Require Import Floats.SpecFloat.
From stdpp Require Import base tactics option list numbers.

Local Open Scope Z_scope.

(** ** Arrays with bounds-checked access *)

Definition rd {A} (a : list A) (i : Z) : option A :=
  if decide (0 ≤ i) then a !! Z.to_nat i else None.

Definition wr {A} (a : list A) (i : Z) (v : A) : option (list A) :=
  if decide (0 ≤ i < Z.of_nat (length a)) then Some (<[Z.to_nat i := v]> a)
  else None.

(** [for (int i = lo; i < hi; i++) body] over a state that may fault. *)
Fixpoint for_each {S} (body : Z → S → option S) (idx : list Z) (s : S)
  : option S :=
  match idx with
  | [] => Some s
  | i :: rest =>
      match body i s with
      | Some s' => for_each body rest s'
      | None => None
      end
  end.

Definition for_range {S} (lo hi : Z) (body : Z → S → option S) (s : S)
  : option S :=
  for_each body (seqZ lo (hi - lo)) s.

(** ** Disjoint set union *)

Definition MAX_LABELS : Z := 256.

(** [void dsu_init()]: [parent[i] = i] for every [i] below [MAX_LABELS]. *)
Definition dsu_init (parent : list Z) : option (list Z) :=
  for_range 0 MAX_LABELS (λ i p, wr p i i) parent.

(** [int dsu_find(int i)], with path compression.  The result is the array
    after compression and the root. *)
Fixpoint dsu_find (fuel : nat) (parent : list Z) (i : Z)
  : option (list Z * Z) :=
  match fuel with
  | O => None
  | S fuel' =>
      pi ← rd parent i;
      if decide (pi = i) then Some (parent, i)
      else
        '(parent1, r) ← dsu_find fuel' parent pi;
        parent2 ← wr parent1 i r;
        Some (parent2, r)
  end.

(** [void dsu_unite(int i, int j)]. *)
Definition dsu_unite (fuel : nat) (parent : list Z) (i j : Z)
  : option (list Z) :=
  '(p1, root_i) ← dsu_find fuel parent i;
  '(p2, root_j) ← dsu_find fuel p1 j;
  if decide (root_i ≠ root_j) then
    if decide (root_i < root_j) then wr p2 root_j root_i
    else wr p2 root_i root_j
  else Some p2.

(** The recursion depth the pipeline allows [dsu_find]: a chain of parents
    over [MAX_LABELS] labels that strictly decreases is shorter than this. *)
Definition FIND_FUEL : nat := Z.to_nat MAX_LABELS.

(** A sequence of unions, performed in order. *)
Fixpoint dsu_unite_all (fuel : nat) (us : list (Z * Z)) (parent : list Z)
  : option (list Z) :=
  match us with
  | [] => Some parent
  | (i, j) :: rest =>
      match dsu_unite fuel parent i j with
      | Some p' => dsu_unite_all fuel rest p'
      | None => None
      end
  end.

(** ** Frames

    [camera_fb_t] and [pixformat_t] are declared by the camera driver
    ([esp_camera.h]), outside of this repository.  The fields the pipeline
    reads are kept; [buf] is seen as the array of [uint16_t] the code casts
    it to, one 16-bit word per pixel. *)

Inductive pixformat_t :=
  | PIXFORMAT_RGB565
  | PIXFORMAT_YUV422
  | PIXFORMAT_YUV420
  | PIXFORMAT_GRAYSCALE
  | PIXFORMAT_JPEG
  | PIXFORMAT_RGB888
  | PIXFORMAT_RAW
  | PIXFORMAT_RGB444
  | PIXFORMAT_RGB555.

#[global] Instance pixformat_eq_dec : EqDecision pixformat_t.
Proof. solve_decision. Defined.

Record camera_fb_t := {
  buf : list Z;
  width : Z;
  height : Z;
  format : pixformat_t
}.

(** Narrowing conversions of C. *)
Definition u8 (z : Z) : Z := Z.land z 0xFF.
Definition u16 (z : Z) : Z := z mod 65536.
Definition u32 (z : Z) : Z := z mod 4294967296.
(** [uint32_t] to [int], the way the compiler does it (wrap-around). *)
Definition int_of_u32 (z : Z) : Z :=
  if decide (z < 2147483648) then z else z - 4294967296.

(** ** Single-precision floats *)

Definition float := spec_float.
Definition prec32 : Z := 24.
Definition emax32 : Z := 128.

Definition fadd : float → float → float := SFadd prec32 emax32.
Definition fsub : float → float → float := SFsub prec32 emax32.
Definition fmul : float → float → float := SFmul prec32 emax32.
Definition fdiv : float → float → float := SFdiv prec32 emax32.
Definition fsqrt : float → float := SFsqrt prec32 emax32.
(** [(float)n] for an integer [n]: rounded to nearest, ties to even. *)
Definition float_of_int (n : Z) : float :=
  binary_normalize prec32 emax32 n 0 false.
(** [a > b] and [a >= b]; both are false when an operand is a NaN. *)
Definition fgt (a b : float) : bool := SFltb b a.
Definition fge (a b : float) : bool := SFleb b a.

Definition f_zero : float := S754_zero false.
Definition f_half : float := Eval vm_compute in fdiv (float_of_int 1) (float_of_int 2).
Definition f_one : float := Eval vm_compute in float_of_int 1.
Definition f_two : float := Eval vm_compute in float_of_int 2.
Definition f_four : float := Eval vm_compute in float_of_int 4.

(** ** Results and blob statistics *)

(** [light_source_result_t]; its fields [x], [y], [pixel_count]. *)
Record light_source_result_t := {
  result_x : float;
  result_y : float;
  result_pixel_count : Z
}.

(** [blob_info_t]; [id] is called [blob_id] here. *)
Record blob_info_t := {
  blob_id : Z;
  pixel_count : Z;
  sum_x : Z;
  sum_y : Z;
  sum_x2 : Z;
  sum_y2 : Z;
  sum_xy : Z
}.

(** An entry of [blob_info_t blobs[MAX_LABELS] = {0}]. *)
Definition blob_zero : blob_info_t :=
  {| blob_id := 0; pixel_count := 0; sum_x := 0; sum_y := 0;
     sum_x2 := 0; sum_y2 := 0; sum_xy := 0 |}.

(** ** Step 1: binarisation *)

Definition FOREGROUND : Z := 0xFFFF.

(** The two bytes of a pixel, in memory order; the ESP32 is little-endian,
    so the byte at the lower address is the low byte of the 16-bit word. *)
Definition low_byte (v : Z) : Z := Z.land v 0xFF.
Definition high_byte (v : Z) : Z := Z.land (Z.shiftr v 8) 0xFF.

Definition chan_r (v : Z) : Z := u8 (Z.land (low_byte v) 0xF8).
Definition chan_g (v : Z) : Z :=
  u8 (Z.lor (Z.shiftl (Z.land (low_byte v) 0x07) 5)
            (Z.shiftr (Z.land (high_byte v) 0xE0) 3)).
Definition chan_b (v : Z) : Z := u8 (Z.shiftl (Z.land (high_byte v) 0x1F) 3).

Definition binarize_pixel (v : Z) : Z :=
  if decide (chan_r v > 230 ∧ chan_g v > 230 ∧ chan_b v > 230)
  then FOREGROUND else 0.

Definition binarize (width height : Z) (pixels : list Z) : option (list Z) :=
  for_range 0 (width * height)
    (λ i px, v ← rd px i; wr px i (binarize_pixel v)) pixels.

(** ** Step 2: first pass, labelling and recording equivalences *)

Record label_state := {
  lb_pixels : list Z;
  lb_parent : list Z;
  next_label : Z
}.

Definition label_pixel (width x y : Z) (s : label_state) : option label_state :=
  let i := y * width + x in
  v ← rd (lb_pixels s) i;
  if decide (v = FOREGROUND) then
    top_label ← (if decide (y > 0) then rd (lb_pixels s) (i - width) else Some 0);
    left_label ← (if decide (x > 0) then rd (lb_pixels s) (i - 1) else Some 0);
    if decide (top_label = 0 ∧ left_label = 0) then
      if decide (next_label s < MAX_LABELS) then
        px ← wr (lb_pixels s) i (u16 (next_label s));
        Some {| lb_pixels := px; lb_parent := lb_parent s;
                next_label := next_label s + 1 |}
      else
        px ← wr (lb_pixels s) i 0;
        Some {| lb_pixels := px; lb_parent := lb_parent s;
                next_label := next_label s |}
    else if decide (top_label > 0 ∧ left_label = 0) then
      px ← wr (lb_pixels s) i top_label;
      Some {| lb_pixels := px; lb_parent := lb_parent s;
              next_label := next_label s |}
    else if decide (top_label = 0 ∧ left_label > 0) then
      px ← wr (lb_pixels s) i left_label;
      Some {| lb_pixels := px; lb_parent := lb_parent s;
              next_label := next_label s |}
    else
      parent' ← (if decide (top_label ≠ left_label)
                 then dsu_unite FIND_FUEL (lb_parent s) top_label left_label
                 else Some (lb_parent s));
      px ← wr (lb_pixels s) i
              (if decide (top_label < left_label) then top_label else left_label);
      Some {| lb_pixels := px; lb_parent := parent';
              next_label := next_label s |}
  else Some s.

Definition label_pass (width height : Z) (s : label_state) : option label_state :=
  for_range 0 height
    (λ y s, for_range 0 width (λ x s, label_pixel width x y s) s) s.

(** ** Step 3: second pass, resolving labels and blob statistics *)

Record stats_state := {
  st_pixels : list Z;
  st_parent : list Z;
  blobs : list blob_info_t
}.

(** The update of [blobs[final_label]] for the pixel at [(x, y)]. *)
Definition accumulate (b : blob_info_t) (final_label x y : Z) : blob_info_t :=
  {| blob_id := if decide (blob_id b = 0) then final_label else blob_id b;
     pixel_count := pixel_count b + 1;
     sum_x := u32 (sum_x b + u32 x);
     sum_y := u32 (sum_y b + u32 y);
     sum_x2 := u32 (sum_x2 b + u32 (u32 x * u32 x));
     sum_y2 := u32 (sum_y2 b + u32 (u32 y * u32 y));
     sum_xy := u32 (sum_xy b + u32 (u32 x * u32 y)) |}.

Definition resolve_pixel (width x y : Z) (s : stats_state) : option stats_state :=
  let i := y * width + x in
  v ← rd (st_pixels s) i;
  if decide (v > 0) then
    '(parent', final_label) ← dsu_find FIND_FUEL (st_parent s) v;
    px ← wr (st_pixels s) i (u16 final_label);
    b ← rd (blobs s) final_label;
    blobs' ← wr (blobs s) final_label (accumulate b final_label x y);
    Some {| st_pixels := px; st_parent := parent'; blobs := blobs' |}
  else Some s.

Definition stats_pass (width height : Z) (s : stats_state) : option stats_state :=
  for_range 0 height
    (λ y s, for_range 0 width (λ x s, resolve_pixel width x y s) s) s.

(** The state the second pass starts from: the buffer and the forest of the
    first pass, and [blob_info_t blobs[MAX_LABELS] = {0}]. *)
Definition stats_start (ls : label_state) : stats_state :=
  {| st_pixels := lb_pixels ls; st_parent := lb_parent ls;
     blobs := replicate (Z.to_nat MAX_LABELS) blob_zero |}.

(** ** Step 4: the best blob *)

Definition min_blob_size : Z := 3.
Definition min_circularity : float := f_half.

(** The circularity of a blob, from its moments.  [powf(d, 2)] is taken as
    the correctly rounded square [d * d], and every operation rounds on its
    own. *)
Definition circularity (b : blob_info_t) : float :=
  let N := float_of_int (pixel_count b) in
  let cx := fdiv (float_of_int (sum_x b)) N in
  let cy := fdiv (float_of_int (sum_y b)) N in
  let mu_xx := fsub (float_of_int (sum_x2 b)) (fmul cx (float_of_int (sum_x b))) in
  let mu_yy := fsub (float_of_int (sum_y2 b)) (fmul cy (float_of_int (sum_y b))) in
  let mu_xy := fsub (float_of_int (sum_xy b)) (fmul cx (float_of_int (sum_y b))) in
  let A := fadd mu_xx mu_yy in
  let d := fsub mu_xx mu_yy in
  let B := fsqrt (fadd (fmul d d) (fmul (fmul f_four mu_xy) mu_xy)) in
  let lambda_max := fdiv (fadd A B) f_two in
  let lambda_min := fdiv (fsub A B) f_two in
  if fgt lambda_max f_zero then fsqrt (fdiv lambda_min lambda_max) else f_zero.

Record best_state := {
  best_blob_index : Z;
  max_pixel_count : Z
}.

Definition select_step (blobs : list blob_info_t) (i : Z) (s : best_state)
  : option best_state :=
  b ← rd blobs i;
  if decide (blob_id b ≠ 0 ∧ pixel_count b >= min_blob_size) then
    if fge (circularity b) min_circularity then
      if decide (pixel_count b > max_pixel_count s) then
        Some {| best_blob_index := i; max_pixel_count := pixel_count b |}
      else Some s
    else Some s
  else Some s.

Definition select_best (blobs : list blob_info_t) (next_label : Z)
  : option best_state :=
  for_range 1 next_label (select_step blobs)
    {| best_blob_index := -1; max_pixel_count := 0 |}.

(** ** Step 5: centroid and normalisation *)

Definition normalize (res dim : Z) : float :=
  fsub (fmul (fdiv (float_of_int res) (float_of_int dim)) f_two) f_one.

(** [sum / pixel_count] with [sum] a [uint32_t] and [pixel_count] an [int]:
    an unsigned division, stored in an [int].  Dividing by zero is a fault. *)
Definition centroid (sum count : Z) : option Z :=
  if decide (u32 count = 0) then None
  else Some (int_of_u32 (sum / u32 count)).

(** ** The pipeline *)

(** Steps 1 to 3: the buffer, the forest and the statistics table after the
    second pass, with the label counter of the first pass. *)
Definition analyse (fb : camera_fb_t) (parent : list Z)
  : option (stats_state * Z) :=
  px ← binarize (width fb) (height fb) (buf fb);
  parent1 ← dsu_init parent;
  ls ← label_pass (width fb) (height fb)
         {| lb_pixels := px; lb_parent := parent1; next_label := 1 |};
  st ← stats_pass (width fb) (height fb) (stats_start ls);
  Some (st, next_label ls).

(** What a call leaves behind: the return value, the frame buffer, the global
    [parent] array and the caller's result struct. *)
Record outcome := {
  ret : Z;
  out_fb : camera_fb_t;
  out_parent : list Z;
  out_result : light_source_result_t
}.

Definition with_buf (fb : camera_fb_t) (px : list Z) : camera_fb_t :=
  {| buf := px; width := width fb; height := height fb; format := format fb |}.

(** [int find_light_source(camera_fb_t* fb, light_source_result_t* result)],
    run with the global array [parent] and the struct [result] points to. *)
Definition find_light_source (fb : camera_fb_t) (parent : list Z)
    (result : light_source_result_t) : option outcome :=
  if decide (format fb ≠ PIXFORMAT_RGB565) then
    Some {| ret := -1; out_fb := fb; out_parent := parent; out_result := result |}
  else
    '(st, next_label) ← analyse fb parent;
    best ← select_best (blobs st) next_label;
    if decide (best_blob_index best = -1) then
      Some {| ret := -1; out_fb := with_buf fb (st_pixels st);
              out_parent := st_parent st;
              out_result := {| result_x := f_zero; result_y := f_zero;
                               result_pixel_count := 0 |} |}
    else
      best_blob ← rd (blobs st) (best_blob_index best);
      res_x ← centroid (sum_x best_blob) (pixel_count best_blob);
      res_y ← centroid (sum_y best_blob) (pixel_count best_blob);
      Some {| ret := 0; out_fb := with_buf fb (st_pixels st);
              out_parent := st_parent st;
              out_result := {| result_x := normalize res_x (width fb);
                               result_y := normalize res_y (height fb);
                               result_pixel_count := pixel_count best_blob |} |}.

(** ** Well-formed frames and the decoder of the specification *)

(** A frame the camera driver can deliver: [width * height] 16-bit words,
    with dimensions that fit the [int] variables of the pipeline. *)
Definition frame_ok (fb : camera_fb_t) : Prop :=
  0 ≤ width fb ∧ 0 ≤ height fb ∧ width fb * height fb < 2147483648 ∧
  Z.of_nat (length (buf fb)) = width fb * height fb ∧
  Forall (λ v, 0 ≤ v < 65536) (buf fb).

(** The RGB565 value of a pixel: red in bits 15..11, green in bits 10..5,
    blue in bits 4..0.  The camera stores its high byte first, so it is the
    stored word with its two bytes swapped. *)
Definition rgb565_word (v : Z) : Z := low_byte v * 256 + high_byte v.

(** The channels as the specification words them: each bit-field on its own,
    shifted left to the 8-bit range. *)
Definition spec_r (w : Z) : Z := Z.shiftl (Z.land (Z.shiftr w 11) 0x1F) 3.
Definition spec_g (w : Z) : Z := Z.shiftl (Z.land (Z.shiftr w 5) 0x3F) 2.
Definition spec_b (w : Z) : Z := Z.shiftl (Z.land w 0x1F) 3.

Definition spec_foreground (v : Z) : Z :=
  if decide (spec_r (rgb565_word v) > 230 ∧ spec_g (rgb565_word v) > 230 ∧
             spec_b (rgb565_word v) > 230)
  then FOREGROUND else 0.

(** *** The forest a parent array represents *)

(** Follow parent pointers at most [n] times. *)
Fixpoint rep (n : nat) (p : list Z) (i : Z) : Z :=
  match n with
  | O => i
  | S n' =>
      match rd p i with
      | Some pi => if decide (pi = i) then i else rep n' p pi
      | None => i
      end
  end.

(** The representative of [i]: parents never increase in a well-formed
    forest, so [i] steps reach the root. *)
Definition root (p : list Z) (i : Z) : Z := rep (Z.to_nat i) p i.

(** Well-formed forest: every parent is a label not above its child. *)
Definition dsu_wf (p : list Z) : Prop :=
  ∀ i pi, rd p i = Some pi → 0 ≤ pi ≤ i.

(** The equivalence generated by a list of unions. *)
Inductive connected (us : list (Z * Z)) : Z → Z → Prop :=
  | conn_refl a : connected us a a
  | conn_edge a b : (a, b) ∈ us → connected us a b
  | conn_sym a b : connected us a b → connected us b a
  | conn_trans a b c : connected us a b → connected us b c → connected us a c.

(** Labels the pipeline can pass to [dsu_unite]. *)
Definition label_pair (n : Z) (e : Z * Z) : Prop :=
  1 ≤ e.1 < n ∧ 1 ≤ e.2 < n.

(** The forest [p] represents the equivalence generated by [us], each class
    by its least label. *)
Definition represents (us : list (Z * Z)) (p : list Z) : Prop :=
  dsu_wf p ∧
  (∀ a, connected us a (root p a)) ∧
  (∀ a b, connected us a b → root p a = root p b).

(** Whether the decoder of the code and the decoder of the specification
    agree on the word [v]. *)
Definition decode_agree (v : Z) : bool :=
  bool_decide (chan_r v = spec_r (rgb565_word v) ∧
               chan_g v = spec_g (rgb565_word v) ∧
               chan_b v = spec_b (rgb565_word v)).

(** ** The passes as loops over the pixel index

    Both passes visit the pixels in raster order, [i = y * width + x]; the
    state after the first [k] pixels is the state of the flat loop below. *)

Definition label_upto (width k : Z) (s : label_state) : option label_state :=
  for_range 0 k (λ i s, label_pixel width (i `mod` width) (i `div` width) s) s.

Definition stats_upto (width k : Z) (s : stats_state) : option stats_state :=
  for_range 0 k (λ i s, resolve_pixel width (i `mod` width) (i `div` width) s) s.

(** ** The labelling rule of the specification *)

(** The labels of the neighbours above and to the left of [(x, y)], 0 at
    the border of the frame. *)
Definition label_above (w x y : Z) (px : list Z) : Z :=
  if decide (y > 0) then default 0 (rd px ((y - 1) * w + x)) else 0.

Definition label_left (w x y : Z) (px : list Z) : Z :=
  if decide (x > 0) then default 0 (rd px (y * w + (x - 1))) else 0.

(** [label_rule top left next parent lbl next' parent']: a foreground pixel
    whose neighbours carry [top] and [left], met with label counter [next] and
    forest [parent], receives [lbl] and leaves the counter at [next'] and the
    forest at [parent'].  One constructor for each case of the specification. *)
Inductive label_rule (top left next : Z) (parent : list Z)
  : Z → Z → list Z → Prop :=
  | rule_fresh :
      top = 0 → left = 0 → next < MAX_LABELS →
      label_rule top left next parent next (next + 1) parent
  | rule_dropped :
      top = 0 → left = 0 → MAX_LABELS ≤ next →
      label_rule top left next parent 0 next parent
  | rule_above :
      top ≠ 0 → left = 0 →
      label_rule top left next parent top next parent
  | rule_left :
      top = 0 → left ≠ 0 →
      label_rule top left next parent left next parent
  | rule_equal :
      top ≠ 0 → left = top →
      label_rule top left next parent top next parent
  | rule_union parent' :
      top ≠ 0 → left ≠ 0 → top ≠ left →
      dsu_unite FIND_FUEL parent top left = Some parent' →
      label_rule top left next parent (Z.min top left) next parent'.

(** ** Invariants of the two passes *)

(** After [k] pixels of the first pass. *)
Record label_inv (w h k : Z) (s : label_state) : Prop := {
  li_len : Z.of_nat (length (lb_pixels s)) = w * h;
  li_done : ∀ j v, rd (lb_pixels s) j = Some v → j < k → 0 ≤ v < next_label s;
  li_todo : ∀ j v, rd (lb_pixels s) j = Some v → k ≤ j → v = 0 ∨ v = FOREGROUND;
  li_next : 1 ≤ next_label s ≤ MAX_LABELS;
  li_wf : dsu_wf (lb_parent s);
  li_plen : Z.of_nat (length (lb_parent s)) = MAX_LABELS;
  li_pos : ∀ l, 1 ≤ l → 1 ≤ root (lb_parent s) l
}.

(** What the second pass keeps true of the entry [l] of the statistics
    table after [k] pixels. *)
Record blob_ok (w h nl k l : Z) (b : blob_info_t) : Prop := {
  bo_count : 0 ≤ pixel_count b ≤ k;
  bo_sum_x : 0 ≤ sum_x b ≤ (w - 1) * pixel_count b;
  bo_sum_y : 0 ≤ sum_y b ≤ (h - 1) * pixel_count b;
  bo_id : blob_id b ≠ 0 → blob_id b = l ∧ 1 ≤ l < nl;
  bo_seen : blob_id b = 0 ↔ pixel_count b = 0
}.

(** After [k] pixels of the second pass, [nl] being the label counter the
    first pass ended with. *)
Record stats_inv (w h nl k : Z) (s : stats_state) : Prop := {
  si_len : Z.of_nat (length (st_pixels s)) = w * h;
  si_lab : ∀ j v, rd (st_pixels s) j = Some v → 0 ≤ v < nl;
  si_next : 1 ≤ nl ≤ MAX_LABELS;
  si_wf : dsu_wf (st_parent s);
  si_plen : Z.of_nat (length (st_parent s)) = MAX_LABELS;
  si_pos : ∀ l, 1 ≤ l → 1 ≤ root (st_parent s) l;
  si_blen : Z.of_nat (length (blobs s)) = MAX_LABELS;
  si_blob : ∀ l b, rd (blobs s) l = Some b → blob_ok w h nl k l b
}.

(** ** The states between the passes *)

(** The state the first pass starts from, after binarisation and
    [dsu_init]. *)
Definition label_start (fb : camera_fb_t) : label_state :=
  {| lb_pixels := binarize_pixel <$> buf fb;
     lb_parent := seqZ 0 MAX_LABELS;
     next_label := 1 |}.

(** ** Selection, as the specification words it *)

(** A candidate is accepted if it has at least [min_blob_size] pixels and
    its circularity is at least [min_circularity]. *)
Definition accepted (b : blob_info_t) : Prop :=
  pixel_count b >= min_blob_size ∧ fge (circularity b) min_circularity = true.

(** [best_of tbl i]: [i] is the index of an accepted entry of the table with
    the largest pixel count, and the lowest index among those. *)
Definition best_of (tbl : list blob_info_t) (i : Z) : Prop :=
  ∃ bb, rd tbl i = Some bb ∧ accepted bb ∧
    ∀ l b, rd tbl l = Some b → accepted b →
      pixel_count b ≤ pixel_count bb ∧ (pixel_count b = pixel_count bb → i ≤ l).

(** The loop invariant of the selection, entries [1 .. i-1] being done. *)
Definition select_inv (tbl : list blob_info_t) (i : Z) (s : best_state) : Prop :=
  (best_blob_index s = -1 ∧ max_pixel_count s = 0 ∧
   ∀ l b, 1 ≤ l < i → rd tbl l = Some b → ¬ accepted b) ∨
  (∃ bb, 1 ≤ best_blob_index s < i ∧ rd tbl (best_blob_index s) = Some bb ∧
     accepted bb ∧ max_pixel_count s = pixel_count bb ∧
     ∀ l b, 1 ≤ l < i → rd tbl l = Some b → accepted b →
       pixel_count b ≤ pixel_count bb ∧
       (pixel_count b = pixel_count bb → best_blob_index s ≤ l)).

(** ** The two ways a call on an RGB565 frame ends *)

(** The result written when no blob qualifies. *)
Definition no_light : light_source_result_t :=
  {| result_x := f_zero; result_y := f_zero; result_pixel_count := 0 |}.

Definition outcome_none (fb : camera_fb_t) (st : stats_state) : outcome :=
  {| ret := -1; out_fb := with_buf fb (st_pixels st);
     out_parent := st_parent st; out_result := no_light |}.

Definition outcome_found (fb : camera_fb_t) (st : stats_state)
    (bb : blob_info_t) : outcome :=
  {| ret := 0; out_fb := with_buf fb (st_pixels st);
     out_parent := st_parent st;
     out_result :=
       {| result_x := normalize (sum_x bb `div` pixel_count bb) (width fb);
          result_y := normalize (sum_y bb `div` pixel_count bb) (height fb);
          result_pixel_count := pixel_count bb |} |}.

(** ** Drawing: [drawEye] and [drawCameraImage]

    [eye_width], [eye_height] and [eye_data] come from
    [eye512_small_iris.h], which is not part of the repository: they are the
    fields of a texture passed to the model.  [eye_data] is taken as an array
    of 16-bit pixels, [eye_width] pixels to the row.  A display is modelled by
    what a transaction sends to it: the address window and the pixels, which
    the controller lays out row by row in the window. *)

Record eye_texture := {
  eye_width : Z;
  eye_height : Z;
  eye_data : list Z
}.

(** [tft.writePixels(ptr, n)] reads [n] pixels of [mem] from [ptr] on;
    reading outside of the array is a fault. *)
Definition read_pixels (mem : list Z) (ptr n : Z) : option (list Z) :=
  if decide (0 ≤ ptr ∧ 0 ≤ n ∧ ptr + n ≤ Z.of_nat (length mem))
  then Some (take (Z.to_nat n) (drop (Z.to_nat ptr) mem))
  else None.

(** [max(30, min(ofst, dim - 240 - 30))], with the macros of Arduino. *)
Definition clamp_ofst (ofst dim : Z) : Z :=
  Z.max 30 (Z.min ofst (dim - 240 - 30)).

(** [void drawEye(Adafruit_GC9A01A tft, int x, int y)]: the pixels sent to
    the window [(0, 0, 240, 240)] of the display. *)
Definition drawEye (tex : eye_texture) (x y : Z) : option (list Z) :=
  let x_eye_ofst := clamp_ofst (eye_width tex `quot` 2 - x) (eye_width tex) in
  let y_eye_ofst := clamp_ofst (eye_height tex `quot` 2 - y) (eye_height tex) in
  let eye_stride := eye_width tex in
  let eye_ptr := y_eye_ofst * eye_stride + x_eye_ofst in
  '(_, sent) ← for_range 0 240
     (λ i '(ptr, sent),
        row ← read_pixels (eye_data tex) ptr 240;
        Some (ptr + eye_stride, sent ++ row))
     (eye_ptr, []);
  Some sent.

(** The bytes of the frame buffer, as [drawCameraImage] sees them through
    [fb->buf]: byte [2 i] is the low byte of pixel [i], byte [2 i + 1] its
    high byte. *)
Definition get_byte (px : list Z) (k : Z) : option Z :=
  v ← rd px (k `quot` 2);
  Some (if decide (k `rem` 2 = 0) then low_byte v else high_byte v).

Definition set_byte (px : list Z) (k b : Z) : option (list Z) :=
  v ← rd px (k `quot` 2);
  wr px (k `quot` 2)
     (if decide (k `rem` 2 = 0) then high_byte v * 256 + u8 b
      else u8 b * 256 + low_byte v).

(** What [drawCameraImage] sends: the address window and the pixels. *)
Record camera_image := {
  ci_fb : camera_fb_t;
  ci_x_start : Z;
  ci_y_start : Z;
  ci_width : Z;
  ci_height : Z;
  ci_sent : list Z
}.

(** [void drawCameraImage(Adafruit_GC9A01A tft, camera_fb_t* fb)]. *)
Definition drawCameraImage (fb : camera_fb_t) : option camera_image :=
  px ← for_range 0 (width fb * height fb)
         (λ i px,
            tmp ← get_byte px (i * 2);
            hi ← get_byte px (i * 2 + 1);
            px1 ← set_byte px (i * 2) hi;
            set_byte px1 (i * 2 + 1) tmp)
         (buf fb);
  let x_start := 120 - width fb `quot` 2 in
  let y_start := 120 - height fb `quot` 2 in
  sent ← read_pixels px 0 (width fb * height fb);
  Some {| ci_fb := with_buf fb px; ci_x_start := x_start; ci_y_start := y_start;
          ci_width := width fb; ci_height := height fb; ci_sent := sent |}.

(** ** The main loop

    [(fx > 0 ? fx : 1.25 * fx) * 100 * aspect + size] is computed in
    [double], since [1.25] is a [double] literal; [double] is IEEE-754
    binary64.  A conversion to [int] truncates; it is a fault when the value
    is a NaN, an infinity, or outside of the range of [int]. *)

Definition double := spec_float.
Definition prec64 : Z := 53.
Definition emax64 : Z := 1024.
Definition dadd : double → double → double := SFadd prec64 emax64.
Definition dsub : double → double → double := SFsub prec64 emax64.
Definition dmul : double → double → double := SFmul prec64 emax64.
Definition double_of_int (n : Z) : double :=
  binary_normalize prec64 emax64 n 0 false.
(** Every [float] is a [double]: the conversion is exact, the mantissa is
    shifted left to the 53 bits of a normal [double] (the exponents of
    [float] are far inside the range of [double]). *)
Definition double_of_float (f : float) : double :=
  match f with
  | S754_finite s m e =>
      let e' := e - (prec64 - Zpos (digits2_pos m)) in
      S754_finite s (fst (shl_align m e e')) (snd (shl_align m e e'))
  | _ => f
  end.

(** Neither a NaN nor an infinity. *)
Definition float_finite (f : spec_float) : bool :=
  match f with
  | S754_zero _ | S754_finite _ _ _ => true
  | _ => false
  end.

(** [(int)f]. *)
Definition int_of_float (f : spec_float) : option Z :=
  match f with
  | S754_zero _ => Some 0
  | S754_finite s m e =>
      let z := cond_Zopp s (if decide (0 ≤ e) then Zpos m * 2 ^ e
                            else Zpos m `quot` 2 ^ (- e)) in
      if decide (-2147483648 ≤ z ≤ 2147483647) then Some z else None
  | _ => None
  end.

Definition f_0_05 : float :=
  Eval vm_compute in fdiv (float_of_int 5) (float_of_int 100).
Definition f_120 : float := Eval vm_compute in float_of_int 120.
Definition d_1_25 : double :=
  Eval vm_compute in SFdiv prec64 emax64 (double_of_int 5) (double_of_int 4).
Definition d_100 : double := Eval vm_compute in double_of_int 100.

(** The offsets of the two eyes, from the detection result and the aspect
    ratio of the frame; [y_gain] is 120 in [loop]. *)
Definition eye_offsets (y_gain : Z) (result : light_source_result_t)
    (aspect : float) : option (Z * Z * Z) :=
  let fx := SFopp (result_x result) in
  let fy := result_y result in
  size ← int_of_float (fmul (float_of_int (result_pixel_count result)) f_0_05);
  y_ofst ← int_of_float (fadd f_120 (fmul fy (float_of_int y_gain)));
  let side (inner : bool) : double :=
    dmul (dmul (if inner then double_of_float fx
                else dmul d_1_25 (double_of_float fx)) d_100)
         (double_of_float aspect) in
  x_ofst_l ← int_of_float
    (dadd (dadd (double_of_float f_120) (side (fgt fx f_zero)))
          (double_of_int size));
  x_ofst_r ← int_of_float
    (dsub (dadd (double_of_float f_120) (side (fgt f_zero fx)))
          (double_of_int size));
  Some (x_ofst_l, x_ofst_r, y_ofst).

(** What an iteration of [loop] leaves behind: whether the frame went back
    to the driver ([esp_camera_fb_return]), the global [parent] array, the
    offsets and what the two displays were sent. *)
Record loop_outcome := {
  frame_returned : bool;
  loop_parent : list Z;
  x_ofst_l : Z;
  x_ofst_r : Z;
  y_ofst : Z;
  left_eye : list Z;
  right_eye : list Z
}.

Definition draw_eyes (tex : eye_texture) (returned : bool) (parent : list Z)
    (ofs : Z * Z * Z) : option loop_outcome :=
  let '(xl, xr, y) := ofs in
  l ← drawEye tex xl y;
  r ← drawEye tex xr y;
  Some {| frame_returned := returned; loop_parent := parent;
          x_ofst_l := xl; x_ofst_r := xr; y_ofst := y;
          left_eye := l; right_eye := r |}.

(** [void loop()]; [capture] is what [esp_camera_fb_get()] returned, [None]
    for a null pointer.  The messages printed on the serial line are left
    out. *)
Definition loop (tex : eye_texture) (capture : option camera_fb_t)
    (parent : list Z) : option loop_outcome :=
  match capture with
  | None =>
      ofs ← eye_offsets 120 no_light f_one;
      draw_eyes tex false parent ofs
  | Some fb =>
      if decide (format fb = PIXFORMAT_RGB565) then
        o ← find_light_source fb parent no_light;
        ofs ← eye_offsets 120 (out_result o)
                (fdiv (float_of_int (width fb)) (float_of_int (height fb)));
        draw_eyes tex true (out_parent o) ofs
      else
        ofs ← eye_offsets 120 no_light f_one;
        draw_eyes tex true parent ofs
  end.

(** The [loop] of the second listing of the file: the vertical gain is 100,
    and the frame goes back to the driver only when its format is right. *)
Definition loop_second_listing (tex : eye_texture)
    (capture : option camera_fb_t) (parent : list Z) : option loop_outcome :=
  match capture with
  | None =>
      ofs ← eye_offsets 100 no_light f_one;
      draw_eyes tex false parent ofs
  | Some fb =>
      if decide (format fb ≠ PIXFORMAT_RGB565) then
        ofs ← eye_offsets 100 no_light f_one;
        draw_eyes tex false parent ofs
      else
        o ← find_light_source fb parent no_light;
        ofs ← eye_offsets 100 (out_result o)
                (fdiv (float_of_int (width fb)) (float_of_int (height fb)));
        draw_eyes tex true (out_parent o) ofs
  end.

(** A texture the two displays can be fed from: large enough for a window
    of 240 by 240 pixels with the margin of 30 on every side. *)
Definition texture_ok (tex : eye_texture) : Prop :=
  300 ≤ eye_width tex ∧ 300 ≤ eye_height tex ∧
  Z.of_nat (length (eye_data tex)) = eye_width tex * eye_height tex.

(** What [loop] leaves behind when the eyes look straight ahead: both
    offsets in the middle of the display. *)
Definition eyes_centred (o : loop_outcome) : Prop :=
  x_ofst_l o = 120 ∧ x_ofst_r o = 120 ∧ y_ofst o = 120.

(** ** Further notions for the properties *)

(** [dsu_find(k)] returns [r] on the array [p]. *)
Definition finds (p : list Z) (k r : Z) : Prop :=
  ∃ p', dsu_find FIND_FUEL p k = Some (p', r).

(** Inputs the properties are tried on: a texture of 512 by 512 pixels, a
    frame of 4 by 3 pixels with a bright block, the same frame all dark, and
    a frame the camera delivered in another format. *)
Definition sample_texture : eye_texture :=
  {| eye_width := 512; eye_height := 512;
     eye_data := replicate (Z.to_nat (512 * 512)) 0 |}.

Definition sample_frame : camera_fb_t :=
  {| buf := [0; 0; 0; 0; 0; 65535; 65535; 0; 0; 65535; 65535; 0];
     width := 4; height := 3; format := PIXFORMAT_RGB565 |}.

Definition sample_dark : camera_fb_t :=
  {| buf := [0; 0; 0; 0; 0; 0; 0; 0; 0; 0; 0; 0];
     width := 4; height := 3; format := PIXFORMAT_RGB565 |}.

(** A frame without a single pixel: its aspect ratio is not a number. *)
Definition sample_empty : camera_fb_t :=
  {| buf := []; width := 0; height := 0; format := PIXFORMAT_RGB565 |}.

Definition sample_jpeg : camera_fb_t :=
  {| buf := [65496; 57599; 4096; 17994; 18758; 256];
     width := 4; height := 3; format := PIXFORMAT_JPEG |}.

(** * Properties *)

(** Well-formedness of a frame or a texture that is written out. *)
Ltac solve_frame_ok :=
  unfold frame_ok; cbn; repeat split; try lia; repeat constructor; lia.

Ltac solve_texture_ok :=
  unfold texture_ok, sample_texture; cbn [eye_width eye_height eye_data];
  rewrite length_replicate; lia.

(** Reduce the projections of the pass states, and nothing else. *)
Ltac proj_simpl :=
  cbn [lb_pixels lb_parent next_label st_pixels st_parent blobs] in *.

(** ** Lemmas on arrays *)

Section arrays.
Context {A : Type}.
Implicit Types (a : list A) (i j : Z) (v : A).

Lemma rd_is_Some a i : is_Some (rd a i) ↔ 0 ≤ i < Z.of_nat (length a).
Proof.
    unfold rd. destruct (decide (0 ≤ i)) as [Hi|Hi].
    - rewrite lookup_lt_is_Some. lia.
    - split; [intros [? ?]; discriminate | lia].
Qed.

Lemma rd_Some_range a i v : rd a i = Some v → 0 ≤ i < Z.of_nat (length a).
Proof. intros H. apply rd_is_Some. eauto. Qed.

Lemma rd_in_range a i : 0 ≤ i < Z.of_nat (length a) → ∃ v, rd a i = Some v.
Proof. intros H. apply rd_is_Some in H. destruct H as [v Hv]. eauto. Qed.

Lemma rd_None a i : rd a i = None ↔ ¬ (0 ≤ i < Z.of_nat (length a)).
Proof.
    rewrite <- rd_is_Some. rewrite eq_None_not_Some. reflexivity.
Qed.

Lemma wr_Some a i v a' :
    wr a i v = Some a' ↔
    0 ≤ i < Z.of_nat (length a) ∧ a' = <[Z.to_nat i := v]> a.
Proof.
    unfold wr. destruct (decide _) as [Hi|Hi].
    - split; [intros [= <-]; auto | intros [_ ->]; auto].
    - split; [discriminate | intros [? _]; lia].
Qed.

Lemma wr_in_range a i v :
    0 ≤ i < Z.of_nat (length a) → wr a i v = Some (<[Z.to_nat i := v]> a).
Proof. intros H. apply wr_Some. auto. Qed.

Lemma wr_length a i v a' : wr a i v = Some a' → length a' = length a.
Proof. intros [_ ->]%wr_Some. apply length_insert. Qed.

Lemma wr_Some_None a i v :
  wr a i v = None → 0 ≤ i < Z.of_nat (length a) → False.
Proof. intros H Hi. rewrite wr_in_range in H by done. discriminate. Qed.

Lemma rd_wr_eq a i v a' : wr a i v = Some a' → rd a' i = Some v.
Proof.
    intros [Hi ->]%wr_Some. unfold rd. rewrite decide_True by lia.
    apply list_lookup_insert_eq. lia.
Qed.

Lemma rd_wr_ne a i j v a' : wr a i v = Some a' → j ≠ i → rd a' j = rd a j.
Proof.
    intros [Hi ->]%wr_Some Hne. unfold rd. destruct (decide (0 ≤ j)); [|done].
    apply list_lookup_insert_ne. lia.
Qed.

Lemma rd_wr a i j v a' :
    wr a i v = Some a' → rd a' j = if decide (j = i) then Some v else rd a j.
Proof.
    intros H. destruct (decide (j = i)) as [->|Hne].
    - eapply rd_wr_eq; eauto.
    - eapply rd_wr_ne; eauto.
Qed.

Lemma rd_ext a b : (∀ i, rd a i = rd b i) → a = b.
Proof.
    intros H. apply list_eq. intros n. specialize (H (Z.of_nat n)).
    unfold rd in H. rewrite !decide_True in H by lia.
    rewrite Nat2Z.id in H. exact H.
Qed.
End arrays.

(** ** Lemmas on loops *)

Section loops.
Context {S : Type}.
Implicit Types (body : Z → S → option S) (s : S).

Lemma for_each_app body l1 l2 s :
    for_each body (l1 ++ l2) s =
    match for_each body l1 s with
    | Some s' => for_each body l2 s'
    | None => None
    end.
Proof.
    revert s. induction l1 as [|i l1 IH]; intros s; simpl; [done|].
    destruct (body i s); [apply IH | done].
Qed.

(** Invariant rule: an invariant that the body keeps and under which the
      body does not fault makes the loop run to its end. *)
Lemma for_each_inv (I : list Z → S → Prop) body l s :
    I [] s →
    (∀ done_ i s0, done_ ++ [i] `prefix_of` l → I done_ s0 →
       ∃ s1, body i s0 = Some s1 ∧ I (done_ ++ [i]) s1) →
    ∃ s', for_each body l s = Some s' ∧ I l s'.
Proof.
    intros H0 Hstep.
    assert (∀ todo done_ s0, done_ ++ todo = l → I done_ s0 →
              ∃ s', for_each body todo s0 = Some s' ∧ I l s') as Hgen.
    { induction todo as [|i todo IH]; intros done_ s0 Heq HI.
      - rewrite app_nil_r in Heq. subst. simpl. eauto.
      - destruct (Hstep done_ i s0) as (s1 & Hb & HI1); [|done|].
        { exists todo. rewrite <- Heq, <- app_assoc. done. }
        simpl. rewrite Hb. apply (IH (done_ ++ [i])); [|done].
        rewrite <- app_assoc. done. }
    apply (Hgen l [] s); done.
Qed.

Lemma for_range_empty lo hi body s : hi ≤ lo → for_range lo hi body s = Some s.
Proof.
    intros H. unfold for_range. rewrite seqZ_nil by lia. done.
Qed.

Lemma for_range_snoc lo hi body s :
    lo ≤ hi →
    for_range lo (hi + 1) body s =
    match for_range lo hi body s with
    | Some s' => body hi s'
    | None => None
    end.
Proof.
    intros H. unfold for_range.
    replace (hi + 1 - lo) with ((hi - lo) + 1) by lia.
    rewrite seqZ_app by lia. rewrite for_each_app.
    replace (lo + (hi - lo)) with hi by lia.
    change (seqZ hi 1) with [hi]. simpl.
    destruct (for_each _ _ _); [|done]. destruct (body hi s0); done.
Qed.

(** Invariant rule for a counted loop. *)
Lemma for_range_inv (I : Z → S → Prop) lo hi body s :
    lo ≤ hi →
    I lo s →
    (∀ i s0, lo ≤ i < hi → I i s0 → ∃ s1, body i s0 = Some s1 ∧ I (i + 1) s1) →
    ∃ s', for_range lo hi body s = Some s' ∧ I hi s'.
Proof.
    intros Hle H0 Hstep.
    assert (∀ n : nat, lo + Z.of_nat n ≤ hi →
              ∃ s', for_range lo (lo + Z.of_nat n) body s = Some s' ∧
                    I (lo + Z.of_nat n) s') as Hgen.
    { induction n as [|n IH]; intros Hn.
      - rewrite Z.add_0_r. rewrite for_range_empty by lia. eauto.
      - destruct IH as (s0 & Hr & HI); [lia|].
        destruct (Hstep (lo + Z.of_nat n) s0) as (s1 & Hb & HI1); [lia|done|].
        exists s1. replace (lo + Z.of_nat (Datatypes.S n))
          with (lo + Z.of_nat n + 1) by lia.
        rewrite for_range_snoc by lia. rewrite Hr. done. }
    specialize (Hgen (Z.to_nat (hi - lo))).
    replace (lo + Z.of_nat (Z.to_nat (hi - lo))) with hi in Hgen by lia.
    apply Hgen. lia.
Qed.
End loops.

(** ** The forest of a parent array *)

Lemma rep_root n p i : rd p i = Some i → rep n p i = i.
Proof.
  intros H. destruct n as [|n]; simpl; [done|].
  rewrite H. rewrite decide_True; done.
Qed.

Lemma rep_oob n p i : rd p i = None → rep n p i = i.
Proof. intros H. destruct n as [|n]; simpl; [done|]. rewrite H. done. Qed.

(** With a well-formed forest, [i] steps from [i] end on a root, and more
    steps change nothing. *)
Lemma rep_stable p :
  dsu_wf p →
  ∀ i n, 0 ≤ i → (Z.to_nat i ≤ n)%nat →
    rep n p i = root p i ∧ rd p (root p i) = Some (root p i) ∨
    rd p i = None ∧ rep n p i = i ∧ root p i = i.
Proof.
  intros Hwf i. induction i as [i IH] using (well_founded_induction (Z.lt_wf 0)).
  intros n Hi Hn. destruct (rd p i) as [pi|] eqn:Hrd.
  2:{ right. unfold root. rewrite !rep_oob; done. }
  left. destruct (decide (pi = i)) as [->|Hne].
  { unfold root. rewrite !rep_root; done. }
  pose proof (Hwf _ _ Hrd) as Hpi.
  assert (rd p pi ≠ None) as Hin.
  { apply rd_Some_range in Hrd. rewrite rd_None. lia. }
  assert (∀ m, (Z.to_nat pi ≤ m)%nat →
            rep m p pi = root p pi ∧ rd p (root p pi) = Some (root p pi)) as Hpar.
  { intros m Hm. destruct (IH pi ltac:(lia) m ltac:(lia) Hm) as [?|[? _]]; done. }
  assert (∀ m, (Z.to_nat i ≤ m)%nat → rep m p i = root p pi) as Hstep.
  { intros m Hm. destruct m as [|m]; [lia|]. simpl. rewrite Hrd.
    rewrite decide_False by done. apply Hpar. lia. }
  assert (root p i = root p pi) as -> by (apply (Hstep (Z.to_nat i)); lia).
  rewrite Hstep by lia. split; [done|]. apply (Hpar (Z.to_nat pi)). lia.
Qed.

Lemma root_unfold p i pi :
  dsu_wf p → rd p i = Some pi →
  root p i = if decide (pi = i) then i else root p pi.
Proof.
  intros Hwf Hrd. pose proof (Hwf _ _ Hrd) as Hpi.
  destruct (decide (pi = i)) as [->|Hne].
  { unfold root. apply rep_root. done. }
  unfold root at 1. destruct (Z.to_nat i) as [|m] eqn:Hm; [lia|].
  simpl. rewrite Hrd, decide_False by done.
  destruct (rep_stable p Hwf pi m) as [[? _]|(Hn & _)]; [lia|lia|done|].
  apply rd_Some_range in Hrd. apply rd_None in Hn. lia.
Qed.

Lemma root_oob p i : rd p i = None → root p i = i.
Proof. intros H. unfold root. apply rep_oob. done. Qed.

Lemma root_is_root p i :
  dsu_wf p → is_Some (rd p i) → rd p (root p i) = Some (root p i).
Proof.
  intros Hwf [pi Hrd]. pose proof (rd_Some_range _ _ _ Hrd).
  destruct (rep_stable p Hwf i (Z.to_nat i)) as [[_ ?]|(Hn & _)]; [lia|lia|done|].
  congruence.
Qed.

Lemma root_le p i : dsu_wf p → 0 ≤ i → 0 ≤ root p i ≤ i.
Proof.
  intros Hwf. induction i as [i IH] using (well_founded_induction (Z.lt_wf 0)).
  intros Hi. destruct (rd p i) as [pi|] eqn:Hrd.
  - rewrite (root_unfold p i pi) by done. pose proof (Hwf _ _ Hrd).
    destruct (decide (pi = i)); [lia|]. specialize (IH pi). lia.
  - rewrite root_oob by done. lia.
Qed.

Lemma root_of_root p r : rd p r = Some r → root p r = r.
Proof. intros H. unfold root. apply rep_root. done. Qed.

Lemma root_idemp p i : dsu_wf p → root p (root p i) = root p i.
Proof.
  intros Hwf. destruct (rd p i) as [pi|] eqn:Hrd.
  - apply root_of_root, root_is_root; eauto.
  - rewrite (root_oob p i) by done. apply root_oob. done.
Qed.

(** Path compression: pointing [i] at its own root changes no root. *)
Lemma compress_root p i p' :
  dsu_wf p → wr p i (root p i) = Some p' →
  dsu_wf p' ∧ ∀ j, root p' j = root p j.
Proof.
  intros Hwf Hwr. pose proof Hwr as [Hi _]%wr_Some.
  assert (dsu_wf p') as Hwf'.
  { intros j pj Hj. rewrite (rd_wr _ _ _ _ _ Hwr) in Hj.
    destruct (decide (j = i)) as [->|]; [|by apply Hwf].
    injection Hj as <-. apply root_le; [done|lia]. }
  split; [done|].
  intros j. induction j as [j IH] using (well_founded_induction (Z.lt_wf 0)).
  destruct (rd p' j) as [pj|] eqn:Hj.
  2:{ rewrite root_oob by done. symmetry. apply root_oob.
      apply rd_None. apply rd_None in Hj. rewrite <- (wr_length _ _ _ _ Hwr). done. }
  rewrite (root_unfold p' j pj) by done.
  pose proof Hj as Hj'. rewrite (rd_wr _ _ _ _ _ Hwr) in Hj'.
  destruct (decide (j = i)) as [->|Hne].
  - injection Hj' as <-. destruct (decide (root p i = i)) as [Heq|Hneq]; [done|].
    rewrite root_of_root; [done|].
    rewrite (rd_wr_ne _ _ _ _ _ Hwr) by done.
    apply root_is_root; [done|]. apply rd_is_Some. done.
  - rewrite (root_unfold p j pj) by done.
    destruct (decide (pj = j)); [done|].
    apply IH. pose proof (Hwf _ _ Hj'). lia.
Qed.

(** [dsu_find] on a well-formed forest returns the root, keeps the forest
    well formed, and changes no root. *)
Lemma dsu_find_spec p :
  dsu_wf p →
  ∀ i fuel, 0 ≤ i < Z.of_nat (length p) → (Z.to_nat i < fuel)%nat →
    ∃ p', dsu_find fuel p i = Some (p', root p i) ∧
          dsu_wf p' ∧ length p' = length p ∧ ∀ j, root p' j = root p j.
Proof.
  intros Hwf i. induction i as [i IH] using (well_founded_induction (Z.lt_wf 0)).
  intros fuel Hi Hfuel. destruct fuel as [|fuel]; [lia|].
  destruct (rd_in_range p i Hi) as [pi Hrd]. simpl. rewrite Hrd. simpl.
  rewrite (root_unfold p i pi) by done.
  destruct (decide (pi = i)) as [->|Hne]; [by exists p|].
  pose proof (Hwf _ _ Hrd) as Hpi.
  destruct (IH pi ltac:(lia) fuel ltac:(lia) ltac:(lia)) as (p1 & -> & Hwf1 & Hlen1 & Hroot1).
  simpl. destruct (wr p1 i (root p pi)) as [p2|] eqn:Hwr.
  2:{ apply wr_Some_None in Hwr; [done|]. rewrite Hlen1. done. }
  simpl. exists p2. split; [done|].
  assert (root p pi = root p1 i) as Heq.
  { rewrite Hroot1. rewrite (root_unfold p i pi) by done. by rewrite decide_False. }
  rewrite Heq in Hwr. destruct (compress_root p1 i p2 Hwf1 Hwr) as [Hwf2 Hroot2].
  split; [done|]. split.
  - rewrite (wr_length _ _ _ _ Hwr). done.
  - intros j. rewrite Hroot2. apply Hroot1.
Qed.

#[global] Arguments dsu_find : simpl never.

(** Linking root [rb] under a smaller root [ra] merges the two classes. *)
Lemma link_root p ra rb p' :
  dsu_wf p → rd p ra = Some ra → rd p rb = Some rb → ra < rb →
  wr p rb ra = Some p' →
  dsu_wf p' ∧ ∀ j, root p' j = if decide (root p j = rb) then ra else root p j.
Proof.
  intros Hwf Hra Hrb Hlt Hwr.
  pose proof (Hwf _ _ Hra) as Hra0.
  assert (dsu_wf p') as Hwf'.
  { intros j pj Hj. rewrite (rd_wr _ _ _ _ _ Hwr) in Hj.
    destruct (decide (j = rb)) as [->|]; [|by apply Hwf].
    injection Hj as <-. lia. }
  split; [done|].
  assert (root p' ra = ra) as Hra'.
  { apply root_of_root. rewrite (rd_wr_ne _ _ _ _ _ Hwr) by lia. done. }
  intros j. induction j as [j IH] using (well_founded_induction (Z.lt_wf 0)).
  destruct (rd p' j) as [pj|] eqn:Hj.
  2:{ assert (rd p j = None) as Hn.
      { apply rd_None. apply rd_None in Hj. rewrite <- (wr_length _ _ _ _ Hwr). done. }
      rewrite !root_oob by done. rewrite decide_False; [done|].
      intros ->. congruence. }
  rewrite (root_unfold p' j pj) by done.
  pose proof Hj as Hj'. rewrite (rd_wr _ _ _ _ _ Hwr) in Hj'.
  destruct (decide (j = rb)) as [->|Hne].
  - injection Hj' as <-. rewrite decide_False by lia.
    rewrite (root_of_root p rb) by done. rewrite decide_True by done. done.
  - rewrite (root_unfold p j pj) by done.
    destruct (decide (pj = j)) as [->|Hpj].
    + rewrite decide_False; done.
    + apply IH. pose proof (Hwf _ _ Hj'). lia.
Qed.

(** [dsu_unite] merges the classes of [i] and [j] under the smaller of their
    two roots. *)
Lemma dsu_unite_spec p i j fuel :
  dsu_wf p →
  0 ≤ i < Z.of_nat (length p) → 0 ≤ j < Z.of_nat (length p) →
  (length p ≤ fuel)%nat →
  ∃ p', dsu_unite fuel p i j = Some p' ∧ dsu_wf p' ∧ length p' = length p ∧
        ∀ k, root p' k =
             if decide (root p k = Z.max (root p i) (root p j))
             then Z.min (root p i) (root p j) else root p k.
Proof.
  intros Hwf Hi Hj Hfuel. unfold dsu_unite.
  destruct (dsu_find_spec p Hwf i fuel Hi ltac:(lia)) as (p1 & -> & Hwf1 & Hlen1 & Hroot1).
  simpl.
  destruct (dsu_find_spec p1 Hwf1 j fuel ltac:(lia) ltac:(lia))
    as (p2 & -> & Hwf2 & Hlen2 & Hroot2).
  simpl. rewrite Hroot1.
  assert (∀ k, root p2 k = root p k) as Hroot.
  { intros k. rewrite Hroot2. apply Hroot1. }
  assert (∀ k, 0 ≤ k < Z.of_nat (length p) → rd p2 (root p k) = Some (root p k)) as Hisroot.
  { intros k Hk. rewrite <- Hroot. apply root_is_root; [done|].
    apply rd_is_Some. lia. }
  pose proof (root_le p i Hwf ltac:(lia)) as Hri.
  pose proof (root_le p j Hwf ltac:(lia)) as Hrj.
  destruct (decide (root p i ≠ root p j)) as [Hne|Heq].
  - destruct (decide (root p i < root p j)) as [Hlt|Hge].
    + destruct (wr p2 (root p j) (root p i)) as [p3|] eqn:Hwr.
      2:{ apply wr_Some_None in Hwr; [done|]. lia. }
      exists p3. split; [done|].
      destruct (link_root p2 (root p i) (root p j) p3) as [Hwf3 Hroot3]; auto.
      split; [done|]. split; [rewrite (wr_length _ _ _ _ Hwr); lia|].
      intros k. rewrite Hroot3, Hroot.
      rewrite Z.max_r, Z.min_l by lia. done.
    + destruct (wr p2 (root p i) (root p j)) as [p3|] eqn:Hwr.
      2:{ apply wr_Some_None in Hwr; [done|]. lia. }
      exists p3. split; [done|].
      destruct (link_root p2 (root p j) (root p i) p3) as [Hwf3 Hroot3]; auto; [lia|].
      split; [done|]. split; [rewrite (wr_length _ _ _ _ Hwr); lia|].
      intros k. rewrite Hroot3, Hroot.
      rewrite Z.max_l, Z.min_r by lia. done.
  - exists p2. split; [done|]. split; [done|]. split; [lia|].
    intros k. rewrite Hroot. assert (root p i = root p j) as -> by lia.
    rewrite Z.max_id, Z.min_id. destruct (decide _); done.
Qed.

(** ** Initialisation *)

Lemma dsu_init_spec p0 :
  Z.of_nat (length p0) = MAX_LABELS →
  ∃ p, dsu_init p0 = Some p ∧ length p = length p0 ∧
       ∀ i, 0 ≤ i < MAX_LABELS → rd p i = Some i.
Proof.
  intros Hlen. unfold dsu_init.
  destruct (for_range_inv
    (λ k p, length p = length p0 ∧ ∀ i, 0 ≤ i < k → rd p i = Some i)
    0 MAX_LABELS (λ i p, wr p i i) p0) as (p & Hp & Hl & Hrd).
  - unfold MAX_LABELS. lia.
  - split; [done|]. intros i Hi. lia.
  - intros i p [Hi1 Hi2] [Hl Hrd]. simpl.
    destruct (wr p i i) as [p'|] eqn:Hwr.
    2:{ apply wr_Some_None in Hwr; [done|]. lia. }
    exists p'. split; [done|]. split.
    + rewrite (wr_length _ _ _ _ Hwr). done.
    + intros k Hk. rewrite (rd_wr _ _ _ _ _ Hwr).
      destruct (decide (k = i)) as [->|]; [done|]. apply Hrd. lia.
  - exists p. done.
Qed.

(** The initial forest does not depend on what the array held before. *)
Lemma dsu_init_fresh p0 :
  Z.of_nat (length p0) = MAX_LABELS → dsu_init p0 = Some (seqZ 0 MAX_LABELS).
Proof.
  intros Hlen. destruct (dsu_init_spec p0 Hlen) as (p & -> & Hl & Hrd).
  f_equal. apply rd_ext. intros i.
  destruct (decide (0 ≤ i < MAX_LABELS)) as [Hi|Hi].
  - rewrite Hrd by done. unfold rd. rewrite decide_True by lia.
    rewrite lookup_seqZ_lt by lia. f_equal. lia.
  - transitivity (@None Z); [|symmetry].
    + apply rd_None. lia.
    + apply rd_None. rewrite length_seqZ. lia.
Qed.

Lemma rd_seqZ n i : 0 ≤ i < n → rd (seqZ 0 n) i = Some i.
Proof.
  intros Hi. unfold rd. rewrite decide_True by lia.
  rewrite lookup_seqZ_lt by lia. f_equal. lia.
Qed.

Lemma rd_seqZ_inv n i v : rd (seqZ 0 n) i = Some v → v = i.
Proof.
  intros H. pose proof (rd_Some_range _ _ _ H) as Hi.
  rewrite length_seqZ in Hi. rewrite rd_seqZ in H by lia. congruence.
Qed.

Lemma dsu_wf_init n : dsu_wf (seqZ 0 n).
Proof.
  intros i pi H. pose proof (rd_Some_range _ _ _ H).
  apply rd_seqZ_inv in H. lia.
Qed.

Lemma root_init n i : root (seqZ 0 n) i = i.
Proof.
  destruct (rd (seqZ 0 n) i) as [v|] eqn:H.
  - pose proof (rd_seqZ_inv _ _ _ H) as ->. apply root_of_root. done.
  - apply root_oob. done.
Qed.

(** ** Classes after a sequence of unions *)

Lemma connected_mono us us' a b :
  us ⊆ us' → connected us a b → connected us' a b.
Proof.
  intros Hsub H. induction H.
  - apply conn_refl.
  - apply conn_edge. auto.
  - apply conn_sym. done.
  - eapply conn_trans; eauto.
Qed.

Lemma represents_init n : represents [] (seqZ 0 n).
Proof.
  split; [apply dsu_wf_init|]. split.
  - intros a. rewrite root_init. apply conn_refl.
  - intros a b H. rewrite !root_init. induction H; try congruence.
    by apply elem_of_nil in H.
Qed.

Lemma represents_unite us p i j fuel :
  represents us p →
  0 ≤ i < Z.of_nat (length p) → 0 ≤ j < Z.of_nat (length p) →
  (length p ≤ fuel)%nat →
  ∃ p', dsu_unite fuel p i j = Some p' ∧ length p' = length p ∧
        represents (us ++ [(i, j)]) p'.
Proof.
  intros (Hwf & Hin & Hsame) Hi Hj Hfuel.
  destruct (dsu_unite_spec p i j fuel Hwf Hi Hj Hfuel) as (p' & Hu & Hwf' & Hlen & Hroot).
  exists p'. split; [done|]. split; [done|].
  assert (connected (us ++ [(i, j)]) (root p i) (root p j)) as Hij.
  { eapply conn_trans; [apply conn_sym; eapply connected_mono; [|apply Hin]|].
    { intros x Hx. apply elem_of_app. by left. }
    eapply conn_trans; [apply conn_edge; apply elem_of_app; right; apply list_elem_of_singleton; done|].
    eapply connected_mono; [|apply Hin]. intros x Hx. apply elem_of_app. by left. }
  split; [done|]. split.
  - intros a. rewrite Hroot.
    assert (connected (us ++ [(i, j)]) a (root p a)) as Ha.
    { eapply connected_mono; [|apply Hin]. intros x Hx. apply elem_of_app. by left. }
    destruct (decide _) as [Heq|]; [|done].
    eapply conn_trans; [exact Ha|]. rewrite Heq.
    destruct (Z.max_spec (root p i) (root p j)) as [[? ->]|[? ->]];
      destruct (Z.min_spec (root p i) (root p j)) as [[? ->]|[? ->]];
      try lia; try apply conn_refl; [by apply conn_sym | done].
  - intros a b H. induction H as [a|a b Hab|a b _ IH|a b c _ IH1 _ IH2].
    + done.
    + apply elem_of_app in Hab as [Hab|Hab].
      * rewrite !Hroot. rewrite (Hsame a b) by (by apply conn_edge). done.
      * apply list_elem_of_singleton in Hab. injection Hab as -> ->.
        rewrite !Hroot.
        destruct (Z.max_spec (root p i) (root p j)) as [[? ->]|[? ->]];
          destruct (Z.min_spec (root p i) (root p j)) as [[? ->]|[? ->]];
          repeat destruct (decide _); lia.
    + done.
    + congruence.
Qed.

Lemma represents_unite_all us0 us p fuel :
  represents us0 p →
  Forall (label_pair (Z.of_nat (length p))) us →
  (length p ≤ fuel)%nat →
  ∃ p', dsu_unite_all fuel us p = Some p' ∧ length p' = length p ∧
        represents (us0 ++ us) p'.
Proof.
  intros Hrep Hus Hfuel. revert us0 p Hrep Hus Hfuel.
  induction us as [|[i j] us IH]; intros us0 p Hrep Hus Hfuel.
  - exists p. rewrite app_nil_r. done.
  - apply Forall_cons_1 in Hus as [[Hi Hj] Hus]. simpl in Hi, Hj.
    destruct (represents_unite us0 p i j fuel Hrep) as (p1 & Hu & Hlen & Hrep1); [lia..|].
    simpl. rewrite Hu.
    destruct (IH (us0 ++ [(i, j)]) p1 Hrep1) as (p' & Hp' & Hlen' & Hrep'); [by rewrite Hlen|lia|].
    exists p'. split; [done|]. split; [lia|]. rewrite <- app_assoc in Hrep'. done.
Qed.

Lemma connected_perm us us' a b :
  us ≡ₚ us' → connected us a b → connected us' a b.
Proof.
  intros Hp. apply connected_mono. intros x Hx. by rewrite <- Hp.
Qed.

Lemma represents_root_min us p a c :
  represents us p → connected us a c → root p a ≤ c.
Proof.
  intros (Hwf & _ & Hsame) Hac. rewrite (Hsame a c Hac).
  destruct (decide (0 ≤ c)) as [Hc|Hc].
  - apply root_le; done.
  - rewrite root_oob; [lia|]. apply rd_None. lia.
Qed.

(** ** Claims on the union-find *)

(** C5: after [dsu_init] and any sequence of [dsu_unite] calls on labels in
    [1..MAX_LABELS-1], [dsu_find] returns one and the same root for all the
    labels of a connected class (also when called one after the other, with
    path compression in between), this root belongs to the class and is its
    least label, and performing the same unions in another order gives the
    same roots. *)
Theorem dsu_find_canonical_min (parent0 : list Z) (us us' : list (Z * Z)) :
  Z.of_nat (length parent0) = MAX_LABELS →
  Forall (label_pair MAX_LABELS) us →
  us' ≡ₚ us →
  ∃ p p',
    dsu_init parent0 ≫= dsu_unite_all FIND_FUEL us = Some p ∧
    dsu_init parent0 ≫= dsu_unite_all FIND_FUEL us' = Some p' ∧
    ∀ a b, 0 ≤ a < MAX_LABELS → 0 ≤ b < MAX_LABELS → connected us a b →
      ∃ pa pb pa' r,
        dsu_find FIND_FUEL p a = Some (pa, r) ∧
        dsu_find FIND_FUEL pa b = Some (pb, r) ∧
        connected us a r ∧ (∀ c, connected us a c → r ≤ c) ∧
        dsu_find FIND_FUEL p' a = Some (pa', r).
Proof.
  intros Hlen Hus Hperm. rewrite (dsu_init_fresh parent0 Hlen). simpl.
  assert (Z.of_nat (length (seqZ 0 MAX_LABELS)) = MAX_LABELS) as Hl0.
  { rewrite length_seqZ. unfold MAX_LABELS. lia. }
  assert (length (seqZ 0 MAX_LABELS) ≤ FIND_FUEL)%nat as Hfuel.
  { rewrite length_seqZ. done. }
  destruct (represents_unite_all [] us (seqZ 0 MAX_LABELS) FIND_FUEL)
    as (p & Hp & Hlp & Hrep); [apply represents_init|by rewrite Hl0|done|].
  destruct (represents_unite_all [] us' (seqZ 0 MAX_LABELS) FIND_FUEL)
    as (p' & Hp' & Hlp' & Hrep'); [apply represents_init|rewrite Hl0, Hperm; done|done|].
  simpl in Hrep, Hrep'. exists p, p'. split; [done|]. split; [done|].
  intros a b Ha Hb Hab.
  pose proof Hrep as (Hwf & Hin & Hsame). pose proof Hrep' as (Hwf' & Hin' & Hsame').
  destruct (dsu_find_spec p Hwf a FIND_FUEL) as (pa & Hfa & Hwfa & Hla & Hra);
    [lia|unfold FIND_FUEL; lia|].
  destruct (dsu_find_spec pa Hwfa b FIND_FUEL) as (pb & Hfb & _ & _ & _);
    [lia|unfold FIND_FUEL; lia|].
  destruct (dsu_find_spec p' Hwf' a FIND_FUEL) as (pa' & Hfa' & _ & _ & _);
    [lia|unfold FIND_FUEL; lia|].
  exists pa, pb, pa', (root p a). split; [done|]. split.
  { rewrite Hfb, Hra. rewrite (Hsame a b Hab). done. }
  split; [apply Hin|]. split.
  { intros c Hc. eapply represents_root_min; eauto. }
  rewrite Hfa'. do 2 f_equal. apply Z.le_antisymm.
  - eapply represents_root_min; [exact Hrep'|].
    eapply connected_perm; [symmetry; exact Hperm|]. apply Hin.
  - eapply represents_root_min; [exact Hrep|].
    eapply connected_perm; [exact Hperm|]. apply Hin'.
Qed.

Lemma dsu_find_canonical_min_witness :
  ∃ p p',
    dsu_init (replicate 256 7) ≫= dsu_unite_all FIND_FUEL [(5, 2); (3, 5)] = Some p ∧
    dsu_init (replicate 256 7) ≫= dsu_unite_all FIND_FUEL [(3, 5); (5, 2)] = Some p' ∧
    ∀ a b, 0 ≤ a < MAX_LABELS → 0 ≤ b < MAX_LABELS →
      connected [(5, 2); (3, 5)] a b →
      ∃ pa pb pa' r,
        dsu_find FIND_FUEL p a = Some (pa, r) ∧
        dsu_find FIND_FUEL pa b = Some (pb, r) ∧
        connected [(5, 2); (3, 5)] a r ∧
        (∀ c, connected [(5, 2); (3, 5)] a c → r ≤ c) ∧
        dsu_find FIND_FUEL p' a = Some (pa', r).
Proof.
  apply (dsu_find_canonical_min (replicate 256 7) [(5, 2); (3, 5)] [(3, 5); (5, 2)]).
  - reflexivity.
  - repeat constructor; simpl; unfold MAX_LABELS; lia.
  - apply perm_swap.
Defined.

(** ** Binarisation *)

(** A loop that rewrites every cell of an array from its own content. *)
Lemma for_range_map {A} (f : A → A) (a : list A) n :
  Z.of_nat (length a) = n →
  for_range 0 n (λ i px, v ← rd px i; wr px i (f v)) a = Some (f <$> a).
Proof.
  intros Hlen.
  destruct (for_range_inv
    (λ k p, length p = length a ∧
            ∀ i, rd p i = if decide (i < k) then f <$> rd a i else rd a i)
    0 n (λ i px, v ← rd px i; wr px i (f v)) a) as (p & Hp & Hl & Hrd).
  - lia.
  - split; [done|]. intros i. destruct (decide (i < 0)); [|done].
    rewrite (proj2 (rd_None a i)) by lia. done.
  - intros i p Hi [Hl Hrd].
    destruct (rd_in_range p i) as [v Hv]; [lia|]. rewrite Hv. simpl.
    destruct (wr p i (f v)) as [p'|] eqn:Hwr.
    2:{ apply wr_Some_None in Hwr; [done|]. lia. }
    exists p'. split; [done|]. split.
    + rewrite (wr_length _ _ _ _ Hwr). done.
    + intros j. rewrite (rd_wr _ _ _ _ _ Hwr). specialize (Hrd j).
      destruct (decide (j = i)) as [->|Hne].
      * rewrite decide_True by lia.
        rewrite decide_False in Hrd by lia. rewrite <- Hrd, Hv. done.
      * rewrite Hrd. destruct (decide (j < i)); destruct (decide (j < i + 1)); try lia; done.
  - rewrite Hp. f_equal. apply rd_ext. intros i. rewrite Hrd.
    destruct (decide (i < n)) as [Hi|Hi].
    + unfold rd. destruct (decide (0 ≤ i)); [|done]. rewrite list_lookup_fmap. done.
    + rewrite (proj2 (rd_None a i)) by lia. symmetry. apply rd_None.
      rewrite length_fmap. lia.
Qed.

Lemma binarize_eq w h px :
  Z.of_nat (length px) = w * h → binarize w h px = Some (binarize_pixel <$> px).
Proof. intros H. unfold binarize. apply for_range_map. done. Qed.

Lemma rd_fmap {A B} (f : A → B) (a : list A) i : rd (f <$> a) i = f <$> rd a i.
Proof. unfold rd. destruct (decide _); [|done]. apply list_lookup_fmap. Qed.

(** The decoder of the code and the decoder of the specification agree,
    channel by channel; the bit operations are checked on bytes. *)
Lemma byte_forall (P : Z → bool) :
  forallb P (seqZ 0 256) = true → ∀ b, 0 ≤ b < 256 → P b = true.
Proof.
  intros H b Hb. rewrite forallb_forall in H. apply H.
  apply list_elem_of_In, elem_of_seqZ. lia.
Qed.

Lemma word_bytes v :
  0 ≤ v < 65536 →
  low_byte v = v `mod` 256 ∧ high_byte v = v `div` 256.
Proof.
  intros Hv. unfold low_byte, high_byte.
  change 255 with (Z.ones 8). rewrite !Z.land_ones by lia.
  rewrite Z.shiftr_div_pow2 by lia. change (2 ^ 8) with 256.
  split; [done|]. apply Z.mod_small. split; [apply Z.div_pos; lia|].
  apply Z.div_lt_upper_bound; lia.
Qed.

Lemma red_byte lo :
  0 ≤ lo < 256 → u8 (Z.land lo 248) = Z.shiftl (Z.land (Z.shiftr lo 3) 31) 3.
Proof.
  intros H. apply Z.eqb_eq.
  apply (byte_forall (λ b, u8 (Z.land b 248) =? Z.shiftl (Z.land (Z.shiftr b 3) 31) 3)); [|done].
  vm_compute. reflexivity.
Qed.

Lemma blue_byte hi :
  0 ≤ hi < 256 → u8 (Z.shiftl (Z.land hi 31) 3) = Z.shiftl (Z.land hi 31) 3.
Proof.
  intros H. apply Z.eqb_eq.
  apply (byte_forall (λ b, u8 (Z.shiftl (Z.land b 31) 3) =? Z.shiftl (Z.land b 31) 3)); [|done].
  vm_compute. reflexivity.
Qed.

Lemma green_high hi :
  0 ≤ hi < 256 → Z.shiftr (Z.land hi 224) 3 = hi `div` 32 * 4.
Proof.
  intros H. apply Z.eqb_eq.
  apply (byte_forall (λ b, Z.shiftr (Z.land b 224) 3 =? b `div` 32 * 4)); [|done].
  vm_compute. reflexivity.
Qed.

Lemma green_join lo hi :
  0 ≤ lo < 256 → 0 ≤ hi < 256 →
  u8 (Z.lor (Z.shiftl (Z.land lo 7) 5) (hi `div` 32 * 4)) =
  Z.shiftl (lo `mod` 8 * 8 + hi `div` 32) 2.
Proof.
  intros Hlo Hhi.
  assert (0 ≤ hi `div` 32 < 8) as Hb.
  { split; [apply Z.div_pos; lia|]. apply Z.div_lt_upper_bound; lia. }
  change 7 with (Z.ones 3). rewrite Z.land_ones by lia. change (2 ^ 3) with 8.
  assert (0 ≤ lo `mod` 8 < 8) as Ha by (apply Z.mod_pos_bound; lia).
  generalize dependent (hi `div` 32). generalize dependent (lo `mod` 8).
  intros a Ha b Hb.
  assert (a = 0 ∨ a = 1 ∨ a = 2 ∨ a = 3 ∨ a = 4 ∨ a = 5 ∨ a = 6 ∨ a = 7) as Hca by lia.
  assert (b = 0 ∨ b = 1 ∨ b = 2 ∨ b = 3 ∨ b = 4 ∨ b = 5 ∨ b = 6 ∨ b = 7) as Hcb by lia.
  destruct Hca as [->|[->|[->|[->|[->|[->|[->| ->]]]]]]];
    destruct Hcb as [->|[->|[->|[->|[->|[->|[->| ->]]]]]]]; reflexivity.
Qed.

Lemma decode_channels v :
  0 ≤ v < 65536 →
  chan_r v = spec_r (rgb565_word v) ∧ chan_g v = spec_g (rgb565_word v) ∧
  chan_b v = spec_b (rgb565_word v).
Proof.
  intros Hv. destruct (word_bytes v Hv) as [Hlo Hhi].
  unfold chan_r, chan_g, chan_b, spec_r, spec_g, spec_b, rgb565_word.
  rewrite Hlo, Hhi.
  assert (0 ≤ v `mod` 256 < 256) as Hl by (apply Z.mod_pos_bound; lia).
  assert (0 ≤ v `div` 256 < 256) as Hh.
  { split; [apply Z.div_pos; lia|]. apply Z.div_lt_upper_bound; lia. }
  generalize dependent (v `mod` 256). generalize dependent (v `div` 256).
  intros hi _ Hh lo _ Hl. clear v Hv.
  assert (Z.shiftr (lo * 256 + hi) 11 = Z.shiftr lo 3) as ->.
  { rewrite !Z.shiftr_div_pow2 by lia. change (2 ^ 11) with 2048. change (2 ^ 3) with 8.
    Z.div_mod_to_equations. lia. }
  assert (Z.land (lo * 256 + hi) 31 = Z.land hi 31) as ->.
  { change 31 with (Z.ones 5). rewrite !Z.land_ones by lia. change (2 ^ 5) with 32.
    Z.div_mod_to_equations. lia. }
  assert (Z.land (Z.shiftr (lo * 256 + hi) 5) 63 = lo `mod` 8 * 8 + hi `div` 32) as ->.
  { change 63 with (Z.ones 6). rewrite Z.land_ones by lia.
    rewrite Z.shiftr_div_pow2 by lia. change (2 ^ 5) with 32. change (2 ^ 6) with 64.
    Z.div_mod_to_equations. lia. }
  split; [by apply red_byte|]. split; [|by apply blue_byte].
  rewrite green_high by done. by apply green_join.
Qed.

Lemma binarize_pixel_spec v : 0 ≤ v < 65536 → binarize_pixel v = spec_foreground v.
Proof.
  intros Hv. destruct (decode_channels v Hv) as (Hr & Hg & Hb).
  unfold binarize_pixel, spec_foreground. rewrite Hr, Hg, Hb. done.
Qed.

Lemma rd_Forall {A} (P : A → Prop) (a : list A) i v :
  Forall P a → rd a i = Some v → P v.
Proof.
  intros Hall Hrd. unfold rd in Hrd. destruct (decide _); [|done].
  eapply Forall_lookup_1; eauto.
Qed.

(** C6: binarisation runs over the whole frame in place, and leaves in
    every pixel [0xFFFF] if each of the three channels of its RGB565 value,
    every bit-field taken on its own and shifted left to 8 bits, is above
    230, and [0] otherwise. *)
Theorem binarize_threshold (fb : camera_fb_t) :
  frame_ok fb →
  ∃ px, binarize (width fb) (height fb) (buf fb) = Some px ∧
        length px = length (buf fb) ∧
        ∀ i v, rd (buf fb) i = Some v →
          rd px i = Some (spec_foreground v) ∧
          (spec_foreground v = FOREGROUND ↔
             spec_r (rgb565_word v) > 230 ∧ spec_g (rgb565_word v) > 230 ∧
             spec_b (rgb565_word v) > 230) ∧
          (spec_foreground v ≠ FOREGROUND → spec_foreground v = 0).
Proof.
  intros (Hw & Hh & Hsz & Hlen & Hwords).
  exists (binarize_pixel <$> buf fb). split; [by apply binarize_eq|].
  split; [apply length_fmap|]. intros i v Hv. split.
  - rewrite rd_fmap, Hv. simpl. f_equal. apply binarize_pixel_spec.
    eapply (rd_Forall _ _ _ _ Hwords); eauto.
  - unfold spec_foreground, FOREGROUND. destruct (decide _) as [H|H].
    + split; [done|]. intros; done.
    + split; [split; [done | tauto]|done].
Qed.

(** ** Nested loops and flat loops *)

Lemma for_each_ext {S} (body1 body2 : Z → S → option S) l s :
  (∀ i s0, i ∈ l → body1 i s0 = body2 i s0) →
  for_each body1 l s = for_each body2 l s.
Proof.
  revert s. induction l as [|i l IH]; intros s H; simpl; [done|].
  rewrite (H i s) by apply list_elem_of_here.
  destruct (body2 i s) as [s1|]; [|done]. apply IH. intros j s2 Hj. apply H.
  by apply list_elem_of_further.
Qed.

Lemma for_each_fmap {S} (body : Z → S → option S) (g : Z → Z) l s :
  for_each body (g <$> l) s = for_each (λ i, body (g i)) l s.
Proof.
  revert s. induction l as [|i l IH]; intros s; simpl; [done|].
  destruct (body (g i) s); [apply IH | done].
Qed.

Lemma for_range_split {S} lo mid hi (body : Z → S → option S) s :
  lo ≤ mid ≤ hi →
  for_range lo hi body s =
  match for_range lo mid body s with
  | Some s' => for_range mid hi body s'
  | None => None
  end.
Proof.
  intros H. unfold for_range.
  replace (hi - lo) with ((mid - lo) + (hi - mid)) by lia.
  rewrite seqZ_app by lia. rewrite for_each_app.
  replace (lo + (mid - lo)) with mid by lia. done.
Qed.

Lemma for_range_shift {S} lo n (body : Z → S → option S) s :
  for_range lo (lo + n) body s = for_range 0 n (λ i, body (lo + i)) s.
Proof.
  unfold for_range. rewrite <- (for_each_fmap body (Z.add lo)).
  rewrite fmap_add_seqZ. do 2 f_equal; lia.
Qed.

(** The two nested loops of a pass are one loop over [i = y * w + x]. *)
Lemma nested_flat {S} (body : Z → Z → S → option S) w h s :
  0 ≤ w → 0 ≤ h →
  for_range 0 h (λ y s, for_range 0 w (λ x s, body x y s) s) s =
  for_range 0 (w * h) (λ i s, body (i `mod` w) (i `div` w) s) s.
Proof.
  intros Hw Hh. revert s.
  induction h as [|h Hh' IH|] using (Z.succ_pred_induction 0); intros s; [|clear Hh|lia].
  - rewrite Z.mul_0_r. rewrite !for_range_empty by lia. done.
  - unfold Z.succ. rewrite for_range_snoc by lia.
    rewrite (for_range_split 0 (w * h) (w * (h + 1))) by nia.
    rewrite IH by lia. destruct (for_range 0 (w * h) _ s) as [s'|]; [|done].
    replace (w * (h + 1)) with (w * h + w) by lia.
    rewrite for_range_shift. unfold for_range. apply for_each_ext.
    intros x sx Hx. apply elem_of_seqZ in Hx.
    replace ((w * h + x) `mod` w) with x; [replace ((w * h + x) `div` w) with h; [done|]|].
    + apply (Z.div_unique_pos _ _ h x); lia.
    + apply (Z.mod_unique_pos _ _ h x); lia.
Qed.

Lemma label_pass_flat w h s :
  0 ≤ w → 0 ≤ h → label_pass w h s = label_upto w (w * h) s.
Proof. intros. unfold label_pass, label_upto. by apply nested_flat. Qed.

Lemma stats_pass_flat w h s :
  0 ≤ w → 0 ≤ h → stats_pass w h s = stats_upto w (w * h) s.
Proof. intros. unfold stats_pass, stats_upto. by apply nested_flat. Qed.

(** Coordinates of the [k]-th pixel. *)
Lemma raster_coords w h k :
  0 ≤ k < w * h → 0 ≤ h →
  0 ≤ k `mod` w < w ∧ 0 ≤ k `div` w < h ∧ k `div` w * w + k `mod` w = k.
Proof.
  intros Hk Hh. assert (0 < w) as Hw by nia.
  pose proof (Z.mod_pos_bound k w Hw). pose proof (Z.div_mod k w ltac:(lia)).
  pose proof (Z.div_pos k w ltac:(lia) Hw).
  split; [done|]. split; [|lia]. split; [done|].
  apply Z.div_lt_upper_bound; lia.
Qed.

(** ** The first pass *)

Lemma label_inv_write w h k s lbl px' nl' p' :
  label_inv w h k s →
  wr (lb_pixels s) k lbl = Some px' →
  0 ≤ lbl < nl' → next_label s ≤ nl' ≤ MAX_LABELS →
  dsu_wf p' → Z.of_nat (length p') = MAX_LABELS →
  (∀ l, 1 ≤ l → 1 ≤ root p' l) →
  label_inv w h (k + 1) {| lb_pixels := px'; lb_parent := p'; next_label := nl' |}.
Proof.
  intros [] Hwr Hlbl Hnl Hwf Hplen Hpos. split; simpl; try done.
  - rewrite (wr_length _ _ _ _ Hwr). done.
  - intros j v Hj Hlt. rewrite (rd_wr _ _ _ _ _ Hwr) in Hj.
    destruct (decide (j = k)) as [->|Hne]; [injection Hj as <-; lia|].
    specialize (li_done0 j v Hj). lia.
  - intros j v Hj Hle. rewrite (rd_wr_ne _ _ _ _ _ Hwr) in Hj by lia.
    apply (li_todo0 j v Hj). lia.
  - lia.
Qed.

Lemma label_inv_skip w h k s :
  label_inv w h k s → rd (lb_pixels s) k = Some 0 → label_inv w h (k + 1) s.
Proof.
  intros [] Hk. split; try done.
  - intros j v Hj Hlt. destruct (decide (j = k)) as [->|Hne].
    + rewrite Hk in Hj. injection Hj as <-. lia.
    + apply (li_done0 j v Hj). lia.
  - intros j v Hj Hle. apply (li_todo0 j v Hj). lia.
Qed.

Lemma FOREGROUND_not_label s w h k :
  label_inv w h k s → ¬ (0 ≤ FOREGROUND < next_label s).
Proof. intros []. unfold FOREGROUND, MAX_LABELS in *. lia. Qed.

(** One step of the first pass: it does not fault, keeps the invariant,
    touches no other pixel, and labels a foreground pixel by [label_rule]. *)
Lemma label_pixel_step w h k s :
  0 ≤ h → 0 ≤ k < w * h → label_inv w h k s →
  ∃ s', label_pixel w (k `mod` w) (k `div` w) s = Some s' ∧
        label_inv w h (k + 1) s' ∧
        (∀ j, j ≠ k → rd (lb_pixels s') j = rd (lb_pixels s) j) ∧
        (rd (lb_pixels s) k = Some 0 → s' = s) ∧
        (rd (lb_pixels s) k = Some FOREGROUND →
           ∃ lbl, rd (lb_pixels s') k = Some lbl ∧
             label_rule (label_above w (k `mod` w) (k `div` w) (lb_pixels s))
                        (label_left w (k `mod` w) (k `div` w) (lb_pixels s))
                        (next_label s) (lb_parent s)
                        lbl (next_label s') (lb_parent s')).
Proof.
  intros Hh Hk Hinv. destruct (raster_coords w h k Hk Hh) as (Hx & Hy & Hi).
  set (x := k `mod` w) in *. set (y := k `div` w) in *.
  pose proof Hinv as [Hlen Hdone Htodo Hnext Hwf Hplen Hpos].
  unfold label_pixel, label_above, label_left. rewrite Hi.
  replace ((y - 1) * w + x) with (k - w) by lia.
  replace (y * w + (x - 1)) with (k - 1) by lia.
  destruct (rd_in_range (lb_pixels s) k ltac:(lia)) as [v Hv]. rewrite Hv. simpl.
  destruct (Htodo k v Hv ltac:(lia)) as [->| ->].
  { rewrite decide_False by done. exists s. split; [done|].
    split; [by apply label_inv_skip|]. split; [done|]. split; [done|]. intros [=]. }
  rewrite decide_True by done.
  assert (∃ top, (if decide (y > 0) then rd (lb_pixels s) (k - w) else Some 0) = Some top ∧
                 0 ≤ top < next_label s) as (top & Htop & Htr).
  { destruct (decide (y > 0)).
    - destruct (rd_in_range (lb_pixels s) (k - w) ltac:(nia)) as [t Ht].
      exists t. split; [done|]. apply (Hdone _ _ Ht). nia.
    - exists 0. split; [done|]. lia. }
  assert (∃ left, (if decide (x > 0) then rd (lb_pixels s) (k - 1) else Some 0) = Some left ∧
                  0 ≤ left < next_label s) as (left & Hleft & Hlr).
  { destruct (decide (x > 0)).
    - destruct (rd_in_range (lb_pixels s) (k - 1) ltac:(nia)) as [t Ht].
      exists t. split; [done|]. apply (Hdone _ _ Ht). lia.
    - exists 0. split; [done|]. lia. }
  rewrite Htop, Hleft. simpl.
  assert (default 0 (if decide (y > 0) then rd (lb_pixels s) (k - w) else Some 0) = top) as Htop'
    by (rewrite Htop; done).
  assert (default 0 (if decide (x > 0) then rd (lb_pixels s) (k - 1) else Some 0) = left) as Hleft'
    by (rewrite Hleft; done).
  assert ((if decide (y > 0) then default 0 (rd (lb_pixels s) (k - w)) else 0) = top) as ->
    by (rewrite <- Htop'; destruct (decide (y > 0)); done).
  assert ((if decide (x > 0) then default 0 (rd (lb_pixels s) (k - 1)) else 0) = left) as ->
    by (rewrite <- Hleft'; destruct (decide (x > 0)); done).
  assert (∀ lbl, ∃ px', wr (lb_pixels s) k lbl = Some px') as Hwr.
  { intros lbl. rewrite wr_in_range by lia. eauto. }
  assert (∀ px' lbl nl' p', wr (lb_pixels s) k lbl = Some px' →
            0 ≤ lbl < nl' → next_label s ≤ nl' ≤ MAX_LABELS →
            dsu_wf p' → Z.of_nat (length p') = MAX_LABELS →
            (∀ l, 1 ≤ l → 1 ≤ root p' l) →
            label_rule top left (next_label s) (lb_parent s) lbl nl' p' →
            let s' := {| lb_pixels := px'; lb_parent := p'; next_label := nl' |} in
            label_inv w h (k + 1) s' ∧
            (∀ j, j ≠ k → rd (lb_pixels s') j = rd (lb_pixels s) j) ∧
            (Some FOREGROUND = Some 0 → s' = s) ∧
            (Some FOREGROUND = Some FOREGROUND →
               ∃ l, rd (lb_pixels s') k = Some l ∧
                 label_rule top left (next_label s) (lb_parent s)
                   l (next_label s') (lb_parent s'))) as Hfin.
  { intros px' lbl nl' p' Hw ? ? ? ? ? Hrule. simpl. split.
    - eapply label_inv_write; eauto.
    - split; [intros j Hj; eapply rd_wr_ne; eauto|]. split; [intros [=]|].
      intros _. exists lbl. split; [eapply rd_wr_eq; eauto | done]. }
  destruct (decide (top = 0 ∧ left = 0)) as [[-> ->]|Hn1].
  { destruct (decide (next_label s < MAX_LABELS)) as [Hcap|Hcap].
    - destruct (Hwr (u16 (next_label s))) as [px' Hpx]. rewrite Hpx. simpl.
      eexists. split; [done|].
      assert (u16 (next_label s) = next_label s) as Hu.
      { unfold u16. apply Z.mod_small. unfold MAX_LABELS in *. lia. }
      rewrite Hu in Hpx. eapply Hfin; eauto; try lia. by constructor.
    - destruct (Hwr 0) as [px' Hpx]. rewrite Hpx. simpl.
      eexists. split; [done|]. eapply Hfin; eauto; try lia.
      constructor; auto; lia. }
  destruct (decide (top > 0 ∧ left = 0)) as [[Ht ->]|Hn2].
  { destruct (Hwr top) as [px' Hpx]. rewrite Hpx. simpl.
    eexists. split; [done|]. eapply Hfin; eauto; try lia.
    apply rule_above; lia. }
  destruct (decide (top = 0 ∧ left > 0)) as [[-> Hl]|Hn3].
  { destruct (Hwr left) as [px' Hpx]. rewrite Hpx. simpl.
    eexists. split; [done|]. eapply Hfin; eauto; try lia.
    apply rule_left; lia. }
  assert (1 ≤ top ∧ 1 ≤ left) as [Ht Hl] by lia.
  destruct (decide (top ≠ left)) as [Hne|Heq].
  - destruct (dsu_unite_spec (lb_parent s) top left FIND_FUEL Hwf)
      as (p' & Hu & Hwf' & Hlen' & Hroot'); [lia|lia|unfold FIND_FUEL; lia|].
    rewrite Hu. simpl.
    destruct (Hwr (if decide (top < left) then top else left)) as [px' Hpx].
    rewrite Hpx. simpl. eexists. split; [done|].
    assert ((if decide (top < left) then top else left) = Z.min top left) as Hmin.
    { destruct (decide (top < left)); lia. }
    rewrite Hmin in Hpx. eapply Hfin; eauto; try lia.
    + intros l Hl1. rewrite Hroot'. pose proof (Hpos l Hl1).
      pose proof (Hpos top Ht). pose proof (Hpos left Hl).
      destruct (decide (root (lb_parent s) l = _)); lia.
    + apply rule_union; auto; lia.
  - simpl. assert (left = top) as -> by lia.
    destruct (Hwr (if decide (top < top) then top else top)) as [px' Hpx].
    rewrite Hpx. simpl. eexists. split; [done|].
    assert ((if decide (top < top) then top else top) = top) as Hmin.
    { destruct (decide (top < top)); lia. }
    rewrite Hmin in Hpx. eapply Hfin; eauto; try lia.
    apply rule_equal; auto; lia.
Qed.

Lemma label_upto_succ w k s :
  0 ≤ k →
  label_upto w (k + 1) s =
  match label_upto w k s with
  | Some s' => label_pixel w (k `mod` w) (k `div` w) s'
  | None => None
  end.
Proof. intros Hk. unfold label_upto. by rewrite for_range_snoc. Qed.

(** The first pass never faults and keeps its invariant. *)
Lemma label_upto_inv w h s0 k :
  0 ≤ h → label_inv w h 0 s0 → 0 ≤ k ≤ w * h →
  ∃ s, label_upto w k s0 = Some s ∧ label_inv w h k s.
Proof.
  intros Hh H0 Hk. unfold label_upto.
  apply (for_range_inv (λ i s, label_inv w h i s)); [lia|done|].
  intros i s Hi Hinv.
  destruct (label_pixel_step w h i s Hh ltac:(lia) Hinv) as (s' & Hs' & Hinv' & _).
  eauto.
Qed.

Lemma binarize_pixel_binary v : binarize_pixel v = 0 ∨ binarize_pixel v = FOREGROUND.
Proof. unfold binarize_pixel. destruct (decide _); auto. Qed.

Lemma label_inv_init w h fb :
  Z.of_nat (length (buf fb)) = w * h →
  label_inv w h 0 (label_start fb).
Proof.
  intros Hlen. unfold label_start. split; proj_simpl.
  - rewrite length_fmap. done.
  - intros j v Hj Hlt. apply rd_Some_range in Hj. lia.
  - intros j v Hj _. rewrite rd_fmap in Hj.
    destruct (rd (buf fb) j) as [u|]; [|done]. injection Hj as <-.
    apply binarize_pixel_binary.
  - unfold MAX_LABELS. lia.
  - apply dsu_wf_init.
  - rewrite length_seqZ. unfold MAX_LABELS. lia.
  - intros l Hl. rewrite root_init. done.
Qed.

(** ** The second pass *)

Lemma blob_ok_mono w h nl k l b : blob_ok w h nl k l b → blob_ok w h nl (k + 1) l b.
Proof. intros []. split; try done. lia. Qed.

Lemma u32_small z : 0 ≤ z < 4294967296 → u32 z = z.
Proof. intros H. unfold u32. apply Z.mod_small. done. Qed.

Lemma u32_range z : 0 ≤ u32 z < 4294967296.
Proof. unfold u32. apply Z.mod_pos_bound. lia. Qed.

Lemma u32_le z : 0 ≤ z → u32 z ≤ z.
Proof. intros H. unfold u32. apply Z.mod_le; lia. Qed.

Lemma blob_ok_accumulate w h nl k b r x y :
  blob_ok w h nl k r b → 0 ≤ x < w → 0 ≤ y < h →
  w * h < 2147483648 → 1 ≤ r < nl →
  blob_ok w h nl (k + 1) r (accumulate b r x y).
Proof.
  intros [] Hx Hy Hsz Hr.
  assert (w < 2147483648 ∧ h < 2147483648) as [Hw Hh] by nia.
  split; simpl.
  - lia.
  - rewrite (u32_small x) by lia.
    pose proof (u32_range (sum_x b + x)). pose proof (u32_le (sum_x b + x)). nia.
  - rewrite (u32_small y) by lia.
    pose proof (u32_range (sum_y b + y)). pose proof (u32_le (sum_y b + y)). nia.
  - destruct (decide (blob_id b = 0)); [done|]. intros _. by apply bo_id0.
  - destruct (decide (blob_id b = 0)); split; lia.
Qed.

(** One step of the second pass. *)
Lemma resolve_pixel_step w h nl k s :
  0 ≤ h → 0 ≤ k < w * h → w * h < 2147483648 → stats_inv w h nl k s →
  ∃ s', resolve_pixel w (k `mod` w) (k `div` w) s = Some s' ∧
        stats_inv w h nl (k + 1) s' ∧
        (∀ j, j ≠ k → rd (st_pixels s') j = rd (st_pixels s) j) ∧
        (∀ l, root (st_parent s') l = root (st_parent s) l) ∧
        (rd (st_pixels s) k = Some 0 → s' = s) ∧
        (∀ v, rd (st_pixels s) k = Some v → v ≠ 0 →
           let r := root (st_parent s) v in
           1 ≤ r ≤ v ∧ rd (st_pixels s') k = Some r ∧
           (∀ l, l ≠ r → rd (blobs s') l = rd (blobs s) l) ∧
           ∃ b, rd (blobs s) r = Some b ∧
                rd (blobs s') r = Some (accumulate b r (k `mod` w) (k `div` w))).
Proof.
  intros Hh Hk Hsz Hinv. destruct (raster_coords w h k Hk Hh) as (Hx & Hy & Hi).
  set (x := k `mod` w) in *. set (y := k `div` w) in *.
  pose proof Hinv as [Hlen Hlab Hnl Hwf Hplen Hpos Hblen Hblob].
  unfold resolve_pixel. rewrite Hi.
  destruct (rd_in_range (st_pixels s) k ltac:(lia)) as [v Hv]. rewrite Hv. simpl.
  pose proof (Hlab k v Hv) as Hvr.
  destruct (decide (v > 0)) as [Hpos_v|Hzero].
  2:{ assert (v = 0) as -> by lia. exists s. split; [done|]. split.
      { destruct Hinv. split; try done. intros l b Hb. apply blob_ok_mono. eauto. }
      split; [done|]. split; [done|]. split; [done|]. intros v' [= <-] Hne. done. }
  destruct (dsu_find_spec (st_parent s) Hwf v FIND_FUEL)
    as (p' & Hfind & Hwf' & Hplen' & Hroot'); [lia|unfold FIND_FUEL; lia|].
  rewrite Hfind. simpl.
  pose proof (root_le (st_parent s) v Hwf ltac:(lia)) as Hrle.
  pose proof (Hpos v ltac:(lia)) as Hrpos.
  set (r := root (st_parent s) v) in *.
  assert (u16 r = r) as ->.
  { unfold u16. apply Z.mod_small. unfold MAX_LABELS in *. lia. }
  rewrite (wr_in_range (st_pixels s) k r) by lia. simpl.
  destruct (rd_in_range (blobs s) r ltac:(lia)) as [b Hb]. rewrite Hb. simpl.
  rewrite (wr_in_range (blobs s) r) by lia. simpl.
  eexists. split; [done|]. simpl.
  assert (wr (st_pixels s) k r = Some (<[Z.to_nat k:=r]> (st_pixels s))) as Hwp
    by (apply wr_in_range; lia).
  assert (wr (blobs s) r (accumulate b r x y) =
          Some (<[Z.to_nat r:=accumulate b r x y]> (blobs s))) as Hwb
    by (apply wr_in_range; lia).
  split; [|split; [|split; [|split]]].
  - split; simpl.
    + rewrite length_insert. done.
    + intros j u Hj. rewrite (rd_wr _ _ _ _ _ Hwp) in Hj.
      destruct (decide (j = k)); [injection Hj as <-; lia|]. eauto.
    + done.
    + done.
    + lia.
    + intros l Hl. rewrite Hroot'. auto.
    + rewrite length_insert. done.
    + intros l b' Hb'. rewrite (rd_wr _ _ _ _ _ Hwb) in Hb'.
      destruct (decide (l = r)) as [->|Hne].
      * injection Hb' as <-. apply blob_ok_accumulate; auto; lia.
      * apply blob_ok_mono. eauto.
  - intros j Hj. eapply rd_wr_ne; eauto.
  - done.
  - intros [=]. lia.
  - intros v' [= <-] Hne. split; [lia|]. split; [eapply rd_wr_eq; eauto|]. split.
    + intros l Hl. eapply rd_wr_ne; eauto.
    + exists b. split; [done|]. eapply rd_wr_eq; eauto.
Qed.

Lemma stats_upto_inv w h nl s0 k :
  0 ≤ h → w * h < 2147483648 → stats_inv w h nl 0 s0 → 0 ≤ k ≤ w * h →
  ∃ s, stats_upto w k s0 = Some s ∧ stats_inv w h nl k s.
Proof.
  intros Hh Hsz H0 Hk. unfold stats_upto.
  apply (for_range_inv (λ i s, stats_inv w h nl i s)); [lia|done|].
  intros i s Hi Hinv.
  destruct (resolve_pixel_step w h nl i s Hh ltac:(lia) Hsz Hinv) as (s' & Hs' & Hinv' & _).
  eauto.
Qed.

Lemma rd_replicate {A} n (v : A) i u : rd (replicate n v) i = Some u → u = v.
Proof.
  unfold rd. destruct (decide _); [|done]. intros H.
  apply lookup_replicate in H as [-> _]. done.
Qed.

Lemma stats_inv_init w h s :
  label_inv w h (w * h) s →
  stats_inv w h (next_label s) 0 (stats_start s).
Proof.
  intros []. unfold stats_start. split; proj_simpl; try done;
    try (rewrite length_replicate; unfold MAX_LABELS; lia).
  - intros j v Hj. apply (li_done0 j v Hj). apply rd_Some_range in Hj. lia.
  - intros l b Hb. apply rd_replicate in Hb as ->. split; simpl; lia.
Qed.

(** ** Steps 1 to 3 together *)

Lemma analyse_ok fb parent :
  frame_ok fb → Z.of_nat (length parent) = MAX_LABELS →
  ∃ ls st,
    label_upto (width fb) (width fb * height fb) (label_start fb) = Some ls ∧
    stats_upto (width fb) (width fb * height fb) (stats_start ls) = Some st ∧
    analyse fb parent = Some (st, next_label ls) ∧
    label_inv (width fb) (height fb) (width fb * height fb) ls ∧
    stats_inv (width fb) (height fb) (next_label ls) (width fb * height fb) st.
Proof.
  intros (Hw & Hh & Hsz & Hlen & Hwords) Hplen.
  destruct (label_upto_inv (width fb) (height fb) (label_start fb)
              (width fb * height fb)) as (ls & Hls & Hlinv);
    [done|by apply label_inv_init|nia|].
  destruct (stats_upto_inv (width fb) (height fb) (next_label ls) (stats_start ls)
              (width fb * height fb)) as (st & Hst & Hsinv);
    [done|done|by apply stats_inv_init|nia|].
  exists ls, st. split; [done|]. split; [done|]. split; [|done].
  unfold analyse. rewrite binarize_eq by done. simpl.
  rewrite dsu_init_fresh by done. simpl.
  rewrite label_pass_flat by done. fold (label_start fb). rewrite Hls. simpl.
  rewrite stats_pass_flat by done. rewrite Hst. done.
Qed.

(** ** Selection *)

Lemma select_step_spec tbl w h nl k i s :
  (∀ l b, rd tbl l = Some b → blob_ok w h nl k l b) →
  0 ≤ i < Z.of_nat (length tbl) →
  ∃ b, rd tbl i = Some b ∧
       select_step tbl i s =
       Some (if decide (accepted b ∧ pixel_count b > max_pixel_count s)
             then {| best_blob_index := i; max_pixel_count := pixel_count b |}
             else s).
Proof.
  intros Hok Hi. destruct (rd_in_range tbl i Hi) as [b Hb]. exists b.
  split; [done|]. unfold select_step. rewrite Hb. simpl.
  destruct (Hok i b Hb) as [_ _ _ _ Hseen]. unfold accepted, min_blob_size.
  destruct (decide (blob_id b ≠ 0 ∧ pixel_count b >= 3)) as [[Hid Hpc]|Hn].
  - destruct (fge (circularity b) min_circularity) eqn:Hc.
    + destruct (decide (pixel_count b > max_pixel_count s)).
      * rewrite decide_True; done.
      * rewrite decide_False; [done|]. tauto.
    + rewrite decide_False; [done|]. intros [[_ ?] _]. done.
  - rewrite decide_False; [done|]. intros [[Hpc _] _]. apply Hn. split; [|done].
    intros H0. apply Hseen in H0. lia.
Qed.

(** The selection loop does not fault and ends on its invariant. *)
Lemma select_best_inv tbl w h nl k :
  (∀ l b, rd tbl l = Some b → blob_ok w h nl k l b) →
  1 ≤ nl ≤ Z.of_nat (length tbl) →
  ∃ best, select_best tbl nl = Some best ∧ select_inv tbl nl best.
Proof.
  intros Hok Hnl. unfold select_best.
  apply (for_range_inv (λ i s, select_inv tbl i s)); [lia| |].
  { left. split; [done|]. split; [done|]. intros; lia. }
  intros i s Hi Hinv.
  destruct (select_step_spec tbl w h nl k i s Hok ltac:(lia)) as (b & Hb & ->).
  eexists. split; [done|].
  destruct (decide (accepted b ∧ pixel_count b > max_pixel_count s)) as [[Hacc Hgt]|Hno].
  - right. exists b. cbn [best_blob_index max_pixel_count].
    split; [lia|]. split; [done|]. split; [done|]. split; [done|].
    intros l b' Hl Hb' Hacc'. destruct (decide (l = i)) as [->|Hne].
    { assert (b' = b) as -> by congruence. lia. }
    destruct Hinv as [(_ & _ & Hnone)|(bb & Hr & Hbb & Haccb & Hmax & Hbest)].
    + exfalso. apply (Hnone l b'); [lia|done|done].
    + destruct (Hbest l b' ltac:(lia) Hb' Hacc'). lia.
  - destruct Hinv as [(Hm1 & Hm0 & Hnone)|(bb & Hr & Hbb & Haccb & Hmax & Hbest)].
    + left. split; [done|]. split; [done|].
      intros l b' Hl Hb' Hacc'. destruct (decide (l = i)) as [->|Hne].
      * assert (b' = b) as -> by congruence. apply Hno. split; [done|].
        destruct Hacc' as [Hpc _]. unfold min_blob_size in Hpc. lia.
      * apply (Hnone l b'); [lia|done|done].
    + right. exists bb. split; [lia|]. split; [done|]. split; [done|]. split; [done|].
      intros l b' Hl Hb' Hacc'. destruct (decide (l = i)) as [->|Hne].
      * assert (b' = b) as -> by congruence. split; [|intros; lia].
        destruct (decide (pixel_count b > max_pixel_count s)); [tauto|lia].
      * apply Hbest; [lia|done|done].
Qed.

(** An accepted entry of the table sits at a label the selection visits. *)
Lemma accepted_in_range tbl w h nl k l b :
  (∀ l b, rd tbl l = Some b → blob_ok w h nl k l b) →
  rd tbl l = Some b → accepted b → 1 ≤ l < nl.
Proof.
  intros Hok Hb [Hpc _]. destruct (Hok l b Hb) as [_ _ _ Hid Hseen].
  apply Hid. intros H0. apply Hseen in H0. unfold min_blob_size in Hpc. lia.
Qed.

(** What the selection returns, over the whole table. *)
Lemma select_best_spec tbl w h nl k :
  (∀ l b, rd tbl l = Some b → blob_ok w h nl k l b) →
  1 ≤ nl ≤ Z.of_nat (length tbl) →
  ∃ best, select_best tbl nl = Some best ∧
    (best_blob_index best = -1 ∧ (∀ l b, rd tbl l = Some b → ¬ accepted b) ∨
     1 ≤ best_blob_index best < nl ∧ best_of tbl (best_blob_index best) ∧
     ∃ bb, rd tbl (best_blob_index best) = Some bb ∧
           max_pixel_count best = pixel_count bb).
Proof.
  intros Hok Hnl. destruct (select_best_inv tbl w h nl k Hok Hnl) as (best & Hsel & Hinv).
  exists best. split; [done|].
  destruct Hinv as [(Hm1 & _ & Hnone)|(bb & Hr & Hbb & Haccb & Hmax & Hbest)].
  - left. split; [done|]. intros l b Hb Hacc.
    apply (Hnone l b); [|done|done]. eapply accepted_in_range; eauto.
  - right. split; [done|]. split; [|eauto]. exists bb. split; [done|]. split; [done|].
    intros l b Hb Hacc. apply Hbest; [|done|done]. eapply accepted_in_range; eauto.
Qed.

(** ** The whole call *)

Lemma centroid_ok w h nl k l b :
  blob_ok w h nl k l b → 1 ≤ pixel_count b → k < 2147483648 →
  w < 2147483648 → h < 2147483648 →
  centroid (sum_x b) (pixel_count b) = Some (sum_x b `div` pixel_count b) ∧
  centroid (sum_y b) (pixel_count b) = Some (sum_y b `div` pixel_count b) ∧
  0 ≤ sum_x b `div` pixel_count b < w ∧ 0 ≤ sum_y b `div` pixel_count b < h.
Proof.
  intros [] Hpc Hk Hw Hh.
  assert (0 ≤ sum_x b `div` pixel_count b < w) as Hx.
  { split; [apply Z.div_pos; lia|]. apply Z.div_lt_upper_bound; nia. }
  assert (0 ≤ sum_y b `div` pixel_count b < h) as Hy.
  { split; [apply Z.div_pos; lia|]. apply Z.div_lt_upper_bound; nia. }
  unfold centroid. rewrite (u32_small (pixel_count b)) by lia.
  rewrite !decide_False by lia. unfold int_of_u32.
  rewrite !decide_True by lia. done.
Qed.

(** A call on a well-formed RGB565 frame never faults: it ends in one of
    the two outcomes, as the selection over the statistics table decides. *)
Lemma find_light_source_spec fb parent result :
  frame_ok fb → format fb = PIXFORMAT_RGB565 →
  Z.of_nat (length parent) = MAX_LABELS →
  ∃ ls st,
    label_upto (width fb) (width fb * height fb) (label_start fb) = Some ls ∧
    stats_upto (width fb) (width fb * height fb) (stats_start ls) = Some st ∧
    analyse fb parent = Some (st, next_label ls) ∧
    label_inv (width fb) (height fb) (width fb * height fb) ls ∧
    stats_inv (width fb) (height fb) (next_label ls) (width fb * height fb) st ∧
    ((∀ l b, rd (blobs st) l = Some b → ¬ accepted b) ∧
     find_light_source fb parent result = Some (outcome_none fb st) ∨
     ∃ i bb, 1 ≤ i < next_label ls ∧ best_of (blobs st) i ∧
       rd (blobs st) i = Some bb ∧
       0 ≤ sum_x bb `div` pixel_count bb < width fb ∧
       0 ≤ sum_y bb `div` pixel_count bb < height fb ∧
       find_light_source fb parent result = Some (outcome_found fb st bb)).
Proof.
  intros Hok Hfmt Hplen.
  destruct (analyse_ok fb parent Hok Hplen) as (ls & st & Hls & Hst & Han & Hlinv & Hsinv).
  exists ls, st. do 5 (split; [done|]).
  pose proof Hsinv as [_ _ Hnl _ _ _ Hblen Hblob].
  destruct (select_best_spec (blobs st) _ _ _ _ Hblob ltac:(lia))
    as (best & Hsel & [[Hm1 Hnone]|(Hr & Hbest & bb & Hbb & Hmax)]).
  - left. split; [done|]. unfold find_light_source.
    rewrite decide_False by (intros H; by apply H).
    rewrite Han. simpl. rewrite Hsel. simpl. rewrite decide_True by done. done.
  - right. exists (best_blob_index best), bb.
    destruct Hok as (Hw & Hh & Hsz & Hlen & Hwords).
    destruct Hbest as (bb' & Hbb' & Hacc & Hmaxi).
    assert (bb' = bb) as -> by congruence.
    assert (1 ≤ pixel_count bb) as Hpc.
    { destruct Hacc as [Hpc _]. unfold min_blob_size in Hpc. lia. }
    assert (0 < width fb ∧ 0 < height fb) as [Hwp Hhp].
    { destruct (Hblob _ _ Hbb) as [Hc _ _ _ _]. nia. }
    destruct (centroid_ok _ _ _ _ _ _ (Hblob _ _ Hbb) Hpc)
      as (Hcx & Hcy & Hrx & Hry); [lia|nia|nia|].
    split; [done|]. split; [by exists bb|]. split; [done|]. split; [done|]. split; [done|].
    unfold find_light_source.
    rewrite decide_False by (intros H; by apply H).
    rewrite Han. simpl. rewrite Hsel. simpl. rewrite decide_False by lia.
    rewrite Hbb. simpl. rewrite Hcx. simpl. rewrite Hcy. done.
Qed.

(** ** Drawing *)

Lemma read_pixels_spec mem ptr n :
  0 ≤ ptr → 0 ≤ n → ptr + n ≤ Z.of_nat (length mem) →
  ∃ row, read_pixels mem ptr n = Some row ∧ Z.of_nat (length row) = n ∧
         ∀ j, 0 ≤ j < n → rd row j = rd mem (ptr + j).
Proof.
  intros Hp Hn Hle. unfold read_pixels. rewrite decide_True by lia.
  eexists. split; [done|]. split.
  - rewrite length_take, length_drop. lia.
  - intros j Hj. unfold rd. rewrite !decide_True by lia.
    rewrite lookup_take_lt by lia. rewrite lookup_drop. f_equal. lia.
Qed.

Lemma read_pixels_fault mem ptr n :
  ¬ (0 ≤ ptr ∧ 0 ≤ n ∧ ptr + n ≤ Z.of_nat (length mem)) →
  read_pixels mem ptr n = None.
Proof. intros H. unfold read_pixels. by rewrite decide_False. Qed.

Lemma rd_app_l {A} (a b : list A) i :
  i < Z.of_nat (length a) → rd (a ++ b) i = rd a i.
Proof.
  intros H. unfold rd. destruct (decide _); [|done]. apply lookup_app_l. lia.
Qed.

Lemma rd_app_r {A} (a b : list A) i :
  Z.of_nat (length a) ≤ i → rd (a ++ b) i = rd b (i - Z.of_nat (length a)).
Proof.
  intros H. unfold rd. rewrite !decide_True by lia.
  rewrite lookup_app_r by lia. f_equal. lia.
Qed.

Lemma clamp_ofst_range ofst dim :
  300 ≤ dim → 30 ≤ clamp_ofst ofst dim ≤ dim - 270.
Proof. intros H. unfold clamp_ofst. lia. Qed.

Lemma clamp_ofst_id ofst dim :
  30 ≤ ofst ≤ dim - 270 → clamp_ofst ofst dim = ofst.
Proof. intros H. unfold clamp_ofst. lia. Qed.

(** The rows [drawEye] sends, from any start of the window inside the
    texture. *)
Lemma eye_rows_spec data stride ptr0 n :
  0 ≤ n → 0 ≤ stride → 0 ≤ ptr0 →
  ptr0 + (n - 1) * stride + 240 ≤ Z.of_nat (length data) →
  ∃ sent,
    for_range 0 n
      (λ i '(ptr, sent),
         row ← read_pixels data ptr 240; Some (ptr + stride, sent ++ row))
      (ptr0, []) = Some (ptr0 + n * stride, sent) ∧
    Z.of_nat (length sent) = n * 240 ∧
    ∀ i j, 0 ≤ i < n → 0 ≤ j < 240 →
      rd sent (i * 240 + j) = rd data (ptr0 + i * stride + j).
Proof.
  intros Hn Hs Hp Hfit.
  destruct (for_range_inv
    (λ k (st : Z * list Z),
       st.1 = ptr0 + k * stride ∧ Z.of_nat (length st.2) = k * 240 ∧
       ∀ i j, 0 ≤ i < k → 0 ≤ j < 240 →
         rd st.2 (i * 240 + j) = rd data (ptr0 + i * stride + j))
    0 n
    (λ i '(ptr, sent),
       row ← read_pixels data ptr 240; Some (ptr + stride, sent ++ row))
    (ptr0, [])) as ([ptr sent] & Hrun & Hptr & Hlen & Hpix).
  - done.
  - simpl. split; [lia|]. split; [done|]. intros; lia.
  - intros k [ptr sent] Hk (Hptr & Hlen & Hpix). simpl in Hptr, Hlen, Hpix.
    destruct (read_pixels_spec data ptr 240) as (row & Hrow & Hrl & Hrd); [nia|lia|nia|].
    rewrite Hrow. simpl. eexists. split; [done|]. simpl. split; [lia|]. split.
    + rewrite length_app. lia.
    + intros i j Hi Hj. destruct (decide (i = k)) as [->|Hne].
      * rewrite rd_app_r by lia. rewrite Hlen.
        replace (k * 240 + j - k * 240) with j by lia.
        rewrite Hrd by lia. f_equal. lia.
      * rewrite rd_app_l by nia. apply Hpix; lia.
  - simpl in Hptr. subst ptr. exists sent. done.
Qed.

(** What [drawEye] sends, pixel by pixel. *)
Lemma drawEye_pixels tex x y :
  texture_ok tex →
  ∃ sent,
    drawEye tex x y = Some sent ∧
    Z.of_nat (length sent) = 240 * 240 ∧
    ∀ i j, 0 ≤ i < 240 → 0 ≤ j < 240 →
      rd sent (i * 240 + j) =
      rd (eye_data tex)
         ((clamp_ofst (eye_height tex `quot` 2 - y) (eye_height tex) + i) * eye_width tex +
          (clamp_ofst (eye_width tex `quot` 2 - x) (eye_width tex) + j)).
Proof.
  intros (Hw & Hh & Hlen).
  pose proof (clamp_ofst_range (eye_width tex `quot` 2 - x) (eye_width tex) Hw) as Hox.
  pose proof (clamp_ofst_range (eye_height tex `quot` 2 - y) (eye_height tex) Hh) as Hoy.
  set (ox := clamp_ofst (eye_width tex `quot` 2 - x) (eye_width tex)) in *.
  set (oy := clamp_ofst (eye_height tex `quot` 2 - y) (eye_height tex)) in *.
  destruct (eye_rows_spec (eye_data tex) (eye_width tex)
              (oy * eye_width tex + ox) 240) as (sent & Hrun & Hsl & Hpix);
    [lia|lia|nia|nia|].
  exists sent. split.
  { unfold drawEye. fold ox oy. rewrite Hrun. done. }
  split; [lia|]. intros i j Hi Hj. rewrite Hpix by done. f_equal. lia.
Qed.





(** ** [drawCameraImage] *)

Lemma byte_range v : 0 ≤ low_byte v < 256 ∧ 0 ≤ high_byte v < 256.
Proof.
  unfold low_byte, high_byte. change 255 with (Z.ones 8).
  rewrite !Z.land_ones by lia. change (2 ^ 8) with 256.
  split; apply Z.mod_pos_bound; lia.
Qed.

Lemma u8_byte b : 0 ≤ b < 256 → u8 b = b.
Proof.
  intros H. unfold u8. change 255 with (Z.ones 8). rewrite Z.land_ones by lia.
  apply Z.mod_small. done.
Qed.

Lemma bytes_of_pair hi lo :
  0 ≤ hi < 256 → 0 ≤ lo < 256 →
  low_byte (hi * 256 + lo) = lo ∧ high_byte (hi * 256 + lo) = hi.
Proof.
  intros Hh Hl. unfold low_byte, high_byte. change 255 with (Z.ones 8).
  rewrite !Z.land_ones by lia. rewrite Z.shiftr_div_pow2 by lia.
  change (2 ^ 8) with 256. split; Z.div_mod_to_equations; lia.
Qed.

(** Swapping the two bytes of a 16-bit word twice gives the word back. *)
Lemma rgb565_word_involutive v :
  0 ≤ v < 65536 → rgb565_word (rgb565_word v) = v.
Proof.
  intros Hv. destruct (word_bytes v Hv) as [Hlo Hhi].
  destruct (byte_range v) as [Hl Hh].
  unfold rgb565_word at 2.
  destruct (bytes_of_pair (low_byte v) (high_byte v) Hl Hh) as [H1 H2].
  unfold rgb565_word. rewrite H1, H2, Hlo, Hhi. Z.div_mod_to_equations. lia.
Qed.

Lemma rgb565_word_range v : 0 ≤ rgb565_word v < 65536.
Proof. destruct (byte_range v). unfold rgb565_word. lia. Qed.

(** The four byte accesses that swap the bytes of pixel [i] amount to one
    store of the swapped word. *)
Lemma swap_pixel_bytes px i :
  0 ≤ i →
  (tmp ← get_byte px (i * 2);
   hi ← get_byte px (i * 2 + 1);
   px1 ← set_byte px (i * 2) hi;
   set_byte px1 (i * 2 + 1) tmp) =
  (v ← rd px i; wr px i (rgb565_word v)).
Proof.
  intros Hi. unfold get_byte, set_byte.
  assert ((i * 2) `quot` 2 = i) as -> by (rewrite Z.quot_div_nonneg by lia; Z.div_mod_to_equations; lia).
  assert ((i * 2 + 1) `quot` 2 = i) as -> by (rewrite Z.quot_div_nonneg by lia; Z.div_mod_to_equations; lia).
  assert ((i * 2) `rem` 2 = 0) as -> by (rewrite Z.rem_mod_nonneg by lia; Z.div_mod_to_equations; lia).
  assert ((i * 2 + 1) `rem` 2 = 1) as -> by (rewrite Z.rem_mod_nonneg by lia; Z.div_mod_to_equations; lia).
  destruct (rd px i) as [v|] eqn:Hv; [|done]. simpl.
  destruct (byte_range v) as [Hl Hh]. rewrite (u8_byte (high_byte v)) by done.
  destruct (wr px i (high_byte v * 256 + high_byte v)) as [px1|] eqn:Hw1.
  2:{ apply rd_Some_range in Hv. apply wr_Some_None in Hw1; done. }
  simpl. rewrite (rd_wr_eq _ _ _ _ Hw1). simpl.
  rewrite (u8_byte (low_byte v)) by done.
  destruct (bytes_of_pair (high_byte v) (high_byte v) Hh Hh) as [-> _].
  pose proof Hw1 as [Hr ->]%wr_Some.
  unfold rgb565_word. rewrite !wr_in_range by (rewrite ?length_insert; done).
  f_equal. apply list_insert_insert_eq.
Qed.

Lemma read_pixels_all mem :
  read_pixels mem 0 (Z.of_nat (length mem)) = Some mem.
Proof.
  unfold read_pixels. rewrite decide_True by lia. f_equal.
  rewrite Nat2Z.id. simpl. apply take_ge. done.
Qed.

(** [drawCameraImage] swaps the two bytes of every pixel, in place, and
    sends the swapped buffer to a window of the size of the frame. *)
Lemma drawCameraImage_eq fb :
  Z.of_nat (length (buf fb)) = width fb * height fb →
  drawCameraImage fb =
  Some {| ci_fb := with_buf fb (rgb565_word <$> buf fb);
          ci_x_start := 120 - width fb `quot` 2;
          ci_y_start := 120 - height fb `quot` 2;
          ci_width := width fb; ci_height := height fb;
          ci_sent := rgb565_word <$> buf fb |}.
Proof.
  intros Hlen. unfold drawCameraImage.
  assert (for_range 0 (width fb * height fb)
            (λ i px, tmp ← get_byte px (i * 2); hi ← get_byte px (i * 2 + 1);
                     px1 ← set_byte px (i * 2) hi; set_byte px1 (i * 2 + 1) tmp)
            (buf fb) = Some (rgb565_word <$> buf fb)) as ->.
  { rewrite <- (for_range_map rgb565_word (buf fb) (width fb * height fb)) by done.
    unfold for_range. apply for_each_ext. intros i px Hi.
    apply elem_of_seqZ in Hi. apply swap_pixel_bytes. lia. }
  simpl. rewrite <- Hlen.
  rewrite <- (length_fmap rgb565_word (buf fb)) at 1.
  rewrite read_pixels_all. done.
Qed.




(** ** The main loop *)

(** The exact conversion agrees with rounding the same value to [double]. *)
Lemma double_of_float_samples :
  Forall (λ f, double_of_float f =
               match f with
               | S754_finite s m e =>
                   binary_normalize prec64 emax64 (cond_Zopp s (Zpos m)) e s
               | _ => f
               end)
    [f_half; f_one; f_0_05; f_120; SFopp f_0_05; S754_finite false 1 (-149);
     S754_finite true 5 (-149); S754_finite false 16777215 104].
Proof. repeat constructor. Qed.

(** Without a detection, the eyes look straight ahead. *)
Lemma eye_offsets_no_light y_gain aspect :
  y_gain = 120 ∨ y_gain = 100 → float_finite aspect = true →
  eye_offsets y_gain no_light aspect = Some (120, 120, 120).
Proof.
  intros [-> | ->] Hfin; destruct aspect as [s|s| |s m e]; try discriminate;
    destruct s; reflexivity.
Qed.

(** A call that reports a failure leaves the sentinel in a struct that held
    it before. *)
Lemma find_light_source_failure fb parent o :
  find_light_source fb parent no_light = Some o → ret o ≠ 0 →
  out_result o = no_light.
Proof.
  unfold find_light_source. intros H Hret.
  destruct (decide (format fb ≠ PIXFORMAT_RGB565)); [by injection H as <-|].
  destruct (analyse fb parent) as [[st nl]|]; [|done]. simpl in H.
  destruct (select_best (blobs st) nl) as [best|]; [|done]. simpl in H.
  destruct (decide (best_blob_index best = -1)); [by injection H as <-|].
  destruct (rd (blobs st) (best_blob_index best)) as [bb|]; [|done]. simpl in H.
  destruct (centroid (sum_x bb) (pixel_count bb)); [|done]. simpl in H.
  destruct (centroid (sum_y bb) (pixel_count bb)); [|done]. simpl in H.
  injection H as <-. done.
Qed.

(** Both eyes drawn for the offsets [(120, 120, 120)]. *)
Lemma draw_eyes_centred tex returned parent :
  texture_ok tex →
  ∃ o v, draw_eyes tex returned parent (120, 120, 120) = Some o ∧
    eyes_centred o ∧ frame_returned o = returned ∧ loop_parent o = parent ∧
    left_eye o = right_eye o ∧
    rd (left_eye o) (120 * 240 + 120) = Some v ∧
    rd (eye_data tex)
       (eye_height tex `quot` 2 * eye_width tex + eye_width tex `quot` 2) = Some v.
Proof.
  intros Hok. pose proof Hok as (Hw & Hh & _).
  destruct (drawEye_pixels tex 120 120 Hok) as (sent & Hrun & Hsl & Hpix).
  destruct (rd_in_range sent (120 * 240 + 120) ltac:(lia)) as [v Hv].
  unfold draw_eyes. rewrite Hrun. simpl. eexists. exists v. split; [done|].
  cbn. do 4 (split; [done|]). split; [done|].
  rewrite <- Hv, (Hpix 120 120) by lia.
  rewrite !clamp_ofst_id
    by (rewrite Z.quot_div_nonneg by lia; Z.div_mod_to_equations; lia).
  f_equal. lia.
Qed.

(** X10: when the capture fails, or the frame is not RGB565, [loop] does
    not run the detection (the forest is left as it was), draws both eyes
    with the offsets [(120, 120)], so that the two displays show the same
    window with the centre of the texture in the middle, and hands a
    captured frame back to the driver. *)
Theorem loop_without_frame (tex : eye_texture) (capture : option camera_fb_t)
    (parent : list Z) :
  texture_ok tex →
  (∀ fb, capture = Some fb → format fb ≠ PIXFORMAT_RGB565) →
  ∃ o v, loop tex capture parent = Some o ∧
    eyes_centred o ∧ loop_parent o = parent ∧
    frame_returned o = bool_decide (capture ≠ None) ∧
    left_eye o = right_eye o ∧
    rd (left_eye o) (120 * 240 + 120) = Some v ∧
    rd (eye_data tex)
       (eye_height tex `quot` 2 * eye_width tex + eye_width tex `quot` 2) = Some v.
Proof.
  intros Hok Hfmt. unfold loop. destruct capture as [fb|].
  - rewrite decide_False by (by apply Hfmt).
    rewrite eye_offsets_no_light by auto. cbn [mbind option_bind].
    destruct (draw_eyes_centred tex true parent Hok) as (o & v & -> & ? & ? & ? & ?).
    exists o, v. rewrite bool_decide_true by done. done.
  - rewrite eye_offsets_no_light by auto. cbn [mbind option_bind].
    destruct (draw_eyes_centred tex false parent Hok) as (o & v & -> & ? & ? & ? & ?).
    exists o, v. rewrite bool_decide_false by (intros Hn; by apply Hn). done.
Qed.

(** X11: when [find_light_source] reports a failure on an RGB565 frame
    whose aspect ratio is a number, [loop] draws both eyes looking straight
    ahead, as for a missing frame. *)
Theorem loop_detection_failed (tex : eye_texture) (fb : camera_fb_t)
    (parent : list Z) (found : outcome) :
  texture_ok tex →
  format fb = PIXFORMAT_RGB565 →
  find_light_source fb parent no_light = Some found → ret found = -1 →
  float_finite (fdiv (float_of_int (width fb)) (float_of_int (height fb))) = true →
  ∃ o v, loop tex (Some fb) parent = Some o ∧
    eyes_centred o ∧ loop_parent o = out_parent found ∧
    frame_returned o = true ∧
    left_eye o = right_eye o ∧
    rd (left_eye o) (120 * 240 + 120) = Some v ∧
    rd (eye_data tex)
       (eye_height tex `quot` 2 * eye_width tex + eye_width tex `quot` 2) = Some v.
Proof.
  intros Hok Hfmt Hrun Hret Hfin. unfold loop. rewrite decide_True by done.
  rewrite Hrun. cbn [mbind option_bind].
  rewrite (find_light_source_failure fb parent found Hrun) by lia.
  rewrite eye_offsets_no_light by auto. cbn [mbind option_bind].
  destruct (draw_eyes_centred tex true (out_parent found) Hok)
    as (o & v & -> & ? & ? & ? & ?).
  exists o, v. done.
Qed.

(** X12: the two listings of [loop] differ on a frame of a wrong format:
    the first hands it back to the driver, the second does not; they draw
    the same centred eyes. *)
Theorem loop_listings_frame_return (tex : eye_texture) (fb : camera_fb_t)
    (parent : list Z) :
  texture_ok tex → format fb ≠ PIXFORMAT_RGB565 →
  ∃ o1 o2,
    loop tex (Some fb) parent = Some o1 ∧
    loop_second_listing tex (Some fb) parent = Some o2 ∧
    frame_returned o1 = true ∧ frame_returned o2 = false ∧
    x_ofst_l o1 = x_ofst_l o2 ∧ x_ofst_r o1 = x_ofst_r o2 ∧ y_ofst o1 = y_ofst o2 ∧
    left_eye o1 = left_eye o2 ∧ right_eye o1 = right_eye o2.
Proof.
  intros Hok Hfmt. unfold loop, loop_second_listing.
  rewrite decide_False by done. rewrite decide_True by done.
  rewrite !eye_offsets_no_light by auto. cbn [mbind option_bind].
  destruct (draw_eyes_centred tex true parent Hok) as (o1 & v1 & H1 & _).
  destruct (draw_eyes_centred tex false parent Hok) as (o2 & v2 & H2 & _).
  rewrite H1, H2. exists o1, o2. split; [done|]. split; [done|].
  unfold draw_eyes in H1, H2.
  destruct (drawEye tex 120 120) as [sent|]; [|done]. simpl in H1, H2.
  injection H1 as <-. injection H2 as <-. done.
Qed.

(** ** More on [find_light_source] *)

(** A call on a well-formed RGB565 frame, with the state of the second pass
    its outcome is made of. *)
Lemma find_light_source_state fb parent result :
  frame_ok fb → format fb = PIXFORMAT_RGB565 →
  Z.of_nat (length parent) = MAX_LABELS →
  ∃ o st nl,
    find_light_source fb parent result = Some o ∧
    stats_inv (width fb) (height fb) nl (width fb * height fb) st ∧
    out_fb o = with_buf fb (st_pixels st) ∧ out_parent o = st_parent st ∧
    (o = outcome_none fb st ∨
     ∃ bb l, o = outcome_found fb st bb ∧ rd (blobs st) l = Some bb ∧ accepted bb).
Proof.
  intros Hok Hfmt Hplen.
  destruct (find_light_source_spec fb parent result Hok Hfmt Hplen)
    as (ls & st & _ & _ & _ & _ & Hsinv & Hcase).
  destruct Hcase as [[_ ->]|(i & bb & _ & Hbest & Hbb & _ & _ & ->)].
  - eexists. exists st, (next_label ls). split; [done|]. split; [done|].
    split; [done|]. split; [done|]. by left.
  - eexists. exists st, (next_label ls). split; [done|]. split; [done|].
    split; [done|]. split; [done|]. right. exists bb, i. split; [done|]. split; [done|].
    destruct Hbest as (bb' & Hbb' & Hacc & _). congruence.
Qed.

(** X13: on every well-formed RGB565 frame [find_light_source] runs to
    its end.  It returns -1 with the sentinel, or 0 with a blob of at least
    [min_blob_size] and at most [width * height] pixels; the frame keeps its
    dimensions, every pixel of the buffer ends as a label below
    [MAX_LABELS], and the forest it leaves is well formed. *)
Theorem find_light_source_outcome (fb : camera_fb_t) (parent : list Z)
    (result : light_source_result_t) :
  frame_ok fb → format fb = PIXFORMAT_RGB565 →
  Z.of_nat (length parent) = MAX_LABELS →
  ∃ o, find_light_source fb parent result = Some o ∧
    (ret o = -1 ∧ out_result o = no_light ∨
     ret o = 0 ∧
     min_blob_size ≤ result_pixel_count (out_result o) ≤ width fb * height fb) ∧
    width (out_fb o) = width fb ∧ height (out_fb o) = height fb ∧
    format (out_fb o) = format fb ∧
    length (buf (out_fb o)) = length (buf fb) ∧
    (∀ i v, rd (buf (out_fb o)) i = Some v → 0 ≤ v < MAX_LABELS) ∧
    dsu_wf (out_parent o) ∧ Z.of_nat (length (out_parent o)) = MAX_LABELS.
Proof.
  intros Hok Hfmt Hplen.
  destruct (find_light_source_state fb parent result Hok Hfmt Hplen)
    as (o & st & nl & Ho & Hsinv & Hfb & Hpar & Hshape).
  destruct Hok as (Hw & Hh & Hsz & Hlen & Hwords).
  destruct Hsinv as [Hslen Hlab Hnl Hwf Hpl _ _ Hblob].
  exists o. split; [done|].
  rewrite Hfb, Hpar. cbn [with_buf width height format buf].
  split; [|split; [done|split; [done|split; [done|split; [lia|split; [|done]]]]]].
  - destruct Hshape as [->|(bb & l & -> & Hbb & [Hpc _])]; [by left|right].
    split; [done|]. cbn [outcome_found out_result result_pixel_count].
    destruct (Hblob l bb Hbb) as [Hc _ _ _ _]. lia.
  - intros i v Hv. specialize (Hlab i v Hv). lia.
Qed.

(** A word below 256 has no blue at all: label values are background for
    the binarisation. *)
Lemma binarize_pixel_label v : 0 ≤ v < 256 → binarize_pixel v = 0.
Proof.
  intros Hv. apply Z.eqb_eq.
  apply (byte_forall (λ b, binarize_pixel b =? 0)); [|done].
  vm_compute. reflexivity.
Qed.

Lemma label_upto_dark w h s0 k :
  0 ≤ h → 0 ≤ k ≤ w * h →
  Z.of_nat (length (lb_pixels s0)) = w * h →
  (∀ i v, rd (lb_pixels s0) i = Some v → v = 0) →
  label_upto w k s0 = Some s0.
Proof.
  intros Hh Hk Hlen Hdark. unfold label_upto.
  destruct (for_range_inv (λ _ s, s = s0) 0 k
    (λ i s, label_pixel w (i `mod` w) (i `div` w) s) s0) as (s & Hs & ->);
    [lia|done| |done].
  intros i s Hi ->. exists s0. split; [|done].
  destruct (raster_coords w h i ltac:(lia) Hh) as (_ & _ & Hc).
  unfold label_pixel. rewrite Hc.
  destruct (rd_in_range (lb_pixels s0) i ltac:(lia)) as [v Hv]. rewrite Hv.
  rewrite (Hdark i v Hv). cbn [mbind option_bind].
  rewrite decide_False by (unfold FOREGROUND; lia). done.
Qed.

Lemma stats_upto_dark w h s0 k :
  0 ≤ h → 0 ≤ k ≤ w * h →
  Z.of_nat (length (st_pixels s0)) = w * h →
  (∀ i v, rd (st_pixels s0) i = Some v → v = 0) →
  stats_upto w k s0 = Some s0.
Proof.
  intros Hh Hk Hlen Hdark. unfold stats_upto.
  destruct (for_range_inv (λ _ s, s = s0) 0 k
    (λ i s, resolve_pixel w (i `mod` w) (i `div` w) s) s0) as (s & Hs & ->);
    [lia|done| |done].
  intros i s Hi ->. exists s0. split; [|done].
  destruct (raster_coords w h i ltac:(lia) Hh) as (_ & _ & Hc).
  unfold resolve_pixel. rewrite Hc.
  destruct (rd_in_range (st_pixels s0) i ltac:(lia)) as [v Hv]. rewrite Hv.
  rewrite (Hdark i v Hv). cbn [mbind option_bind].
  rewrite decide_False by lia. done.
Qed.

(** A frame without a single foreground pixel: the call reports a failure
    and leaves the buffer all zero. *)
Lemma find_light_source_dark fb parent result :
  0 ≤ width fb → 0 ≤ height fb →
  Z.of_nat (length (buf fb)) = width fb * height fb →
  (∀ i v, rd (buf fb) i = Some v → binarize_pixel v = 0) →
  format fb = PIXFORMAT_RGB565 → Z.of_nat (length parent) = MAX_LABELS →
  find_light_source fb parent result =
  Some {| ret := -1; out_fb := with_buf fb (binarize_pixel <$> buf fb);
          out_parent := seqZ 0 MAX_LABELS; out_result := no_light |}.
Proof.
  intros Hw Hh Hlen Hdark Hfmt Hplen.
  assert (∀ i v, rd (binarize_pixel <$> buf fb) i = Some v → v = 0) as Hzero.
  { intros i v Hv. rewrite rd_fmap in Hv.
    destruct (rd (buf fb) i) as [u|] eqn:Hu; [|done]. injection Hv as <-. eauto. }
  unfold find_light_source. rewrite decide_False by (intros H; by apply H).
  unfold analyse. rewrite binarize_eq by done. cbn [mbind option_bind].
  rewrite dsu_init_fresh by done. cbn [mbind option_bind].
  rewrite label_pass_flat by done. fold (label_start fb).
  rewrite (label_upto_dark _ (height fb));
    [|done|split; [by apply Z.mul_nonneg_nonneg|done]| |done].
  2:{ unfold label_start. cbn [lb_pixels]. rewrite length_fmap. done. }
  cbn [mbind option_bind]. rewrite stats_pass_flat by done.
  rewrite (stats_upto_dark _ (height fb));
    [|done|split; [by apply Z.mul_nonneg_nonneg|done]| |done].
  2:{ unfold stats_start, label_start. cbn [st_pixels lb_pixels]. rewrite length_fmap. done. }
  cbn [mbind option_bind]. change (next_label (label_start fb)) with 1.
  unfold select_best. rewrite for_range_empty by lia. cbn [mbind option_bind].
  cbn [best_blob_index]. rewrite decide_True by done. done.
Qed.

(** X14: the buffer is consumed.  After a call on a well-formed RGB565
    frame the buffer holds labels, which are all background for the
    binarisation: a second call on the same buffer finds nothing, returns
    -1 with the sentinel and leaves the buffer all zero. *)
Theorem find_light_source_consumes_buffer (fb : camera_fb_t) (parent : list Z)
    (result : light_source_result_t) :
  frame_ok fb → format fb = PIXFORMAT_RGB565 →
  Z.of_nat (length parent) = MAX_LABELS →
  ∃ o1 o2,
    find_light_source fb parent result = Some o1 ∧
    find_light_source (out_fb o1) (out_parent o1) (out_result o1) = Some o2 ∧
    ret o2 = -1 ∧ out_result o2 = no_light ∧
    ∀ i v, rd (buf (out_fb o2)) i = Some v → v = 0.
Proof.
  intros Hok Hfmt Hplen.
  destruct (find_light_source_state fb parent result Hok Hfmt Hplen)
    as (o1 & st & nl & H1 & Hsinv & Hfb & Hpar & _).
  destruct Hok as (Hw & Hh & Hsz & Hlen & Hwords).
  destruct Hsinv as [Hslen Hlab Hnl _ Hpl _ _ _].
  assert (∀ i v, rd (st_pixels st) i = Some v → binarize_pixel v = 0) as Hdark.
  { intros i v Hv. apply binarize_pixel_label.
    specialize (Hlab i v Hv). unfold MAX_LABELS in Hnl. lia. }
  exists o1. eexists. split; [done|]. rewrite Hfb, Hpar. split.
  { apply find_light_source_dark; cbn [with_buf width height format buf]; done. }
  cbn [ret out_result out_fb with_buf buf]. split; [done|]. split; [done|].
  intros i v Hv. rewrite rd_fmap in Hv.
  destruct (rd (st_pixels st) i) as [u|] eqn:Hu; [|done].
  injection Hv as <-. eauto.
Qed.

(** ** More on the union-find *)

Lemma dsu_find_S fuel p i :
  dsu_find (S fuel) p i =
  (pi ← rd p i;
   if decide (pi = i) then Some (p, i)
   else '(p1, r) ← dsu_find fuel p pi; p2 ← wr p1 i r; Some (p2, r)).
Proof. reflexivity. Qed.

Lemma finds_root p k :
  dsu_wf p → Z.of_nat (length p) = MAX_LABELS → 0 ≤ k < MAX_LABELS →
  finds p k (root p k).
Proof.
  intros Hwf Hlen Hk.
  destruct (dsu_find_spec p Hwf k FIND_FUEL) as (p' & Hf & _);
    [lia|unfold FIND_FUEL; lia|].
  by exists p'.
Qed.

Lemma finds_fun p k r1 r2 : finds p k r1 → finds p k r2 → r1 = r2.
Proof. intros [p1 H1] [p2 H2]. congruence. Qed.

(** X1: [dsu_init] overwrites whatever the array held: afterwards every
    label is found to be its own root without a write, no two labels share a
    root, and a label outside of the array is a fault. *)
Theorem dsu_init_resets (parent0 : list Z) :
  Z.of_nat (length parent0) = MAX_LABELS →
  ∃ p, dsu_init parent0 = Some p ∧ length p = length parent0 ∧
    (∀ i, 0 ≤ i < MAX_LABELS → dsu_find FIND_FUEL p i = Some (p, i)) ∧
    (∀ i, ¬ (0 ≤ i < MAX_LABELS) → dsu_find FIND_FUEL p i = None) ∧
    (∀ i j r, 0 ≤ i < MAX_LABELS → finds p i r → finds p j r → i = j).
Proof.
  intros Hlen. rewrite (dsu_init_fresh parent0 Hlen). eexists. split; [done|].
  assert (Z.of_nat (length (seqZ 0 MAX_LABELS)) = MAX_LABELS) as Hl.
  { rewrite length_seqZ. unfold MAX_LABELS. lia. }
  split; [lia|].
  assert (∀ i, 0 ≤ i < MAX_LABELS →
            dsu_find FIND_FUEL (seqZ 0 MAX_LABELS) i = Some (seqZ 0 MAX_LABELS, i)) as Hin.
  { intros i Hi. change FIND_FUEL with (S 255). rewrite dsu_find_S.
    rewrite rd_seqZ by done. simpl. rewrite decide_True; done. }
  assert (∀ i, ¬ (0 ≤ i < MAX_LABELS) →
            dsu_find FIND_FUEL (seqZ 0 MAX_LABELS) i = None) as Hout.
  { intros i Hi. change FIND_FUEL with (S 255). rewrite dsu_find_S.
    rewrite (proj2 (rd_None (seqZ 0 MAX_LABELS) i)) by lia. done. }
  split; [done|]. split; [done|].
  intros i j r Hi [pi Hfi] [pj Hfj]. rewrite Hin in Hfi by done.
  destruct (decide (0 ≤ j < MAX_LABELS)) as [Hj|Hj].
  - rewrite Hin in Hfj by done. congruence.
  - rewrite Hout in Hfj by done. done.
Qed.

Lemma dsu_init_resets_witness :
  ∃ p, dsu_init (replicate 256 42) = Some p ∧
       dsu_find FIND_FUEL p 17 = Some (p, 17).
Proof.
  destruct (dsu_init_resets (replicate 256 42)) as (p & Hp & _ & Hin & _).
  - reflexivity.
  - exists p. split; [exact Hp|]. apply Hin. unfold MAX_LABELS. lia.
Defined.

Lemma dsu_find_fixed_point fuel p i p' r :
  dsu_find fuel p i = Some (p', r) → rd p r = Some r.
Proof.
  revert p i p' r. induction fuel as [|fuel IH]; intros p i p' r H; [done|].
  rewrite dsu_find_S in H. destruct (rd p i) as [pi|] eqn:Hrd; [|done]. simpl in H.
  destruct (decide (pi = i)) as [->|Hne].
  - injection H as <- <-. done.
  - destruct (dsu_find fuel p pi) as [[p1 r1]|] eqn:Hrec; [|done]. simpl in H.
    destruct (wr p1 i r1); [|done]. simpl in H. injection H as <- <-.
    eapply IH; eauto.
Qed.




Lemma finds_iff_root p k r :
  dsu_wf p → Z.of_nat (length p) = MAX_LABELS → 0 ≤ k < MAX_LABELS →
  finds p k r ↔ r = root p k.
Proof.
  intros Hwf Hlen Hk. split.
  - intros H. eapply finds_fun; [exact H|]. by apply finds_root.
  - intros ->. by apply finds_root.
Qed.

(** X4: [dsu_unite(i, j)] and [dsu_unite(j, i)] lead to the same roots;
    afterwards [i] and [j] share a root, no root has grown, labels that
    shared a root still do, and uniting two labels of one class changes no
    root. *)
Theorem dsu_unite_symmetric (p : list Z) (i j : Z) :
  dsu_wf p → Z.of_nat (length p) = MAX_LABELS →
  0 ≤ i < MAX_LABELS → 0 ≤ j < MAX_LABELS →
  ∃ pij pji,
    dsu_unite FIND_FUEL p i j = Some pij ∧
    dsu_unite FIND_FUEL p j i = Some pji ∧
    dsu_wf pij ∧ length pij = length p ∧
    (∀ k r, 0 ≤ k < MAX_LABELS → finds pij k r ↔ finds pji k r) ∧
    (∃ r, finds pij i r ∧ finds pij j r) ∧
    (∀ k r r', 0 ≤ k < MAX_LABELS → finds p k r → finds pij k r' → r' ≤ r) ∧
    (∀ a b r, 0 ≤ a < MAX_LABELS → 0 ≤ b < MAX_LABELS →
       finds p a r → finds p b r → ∃ r', finds pij a r' ∧ finds pij b r') ∧
    ((∃ r, finds p i r ∧ finds p j r) →
       ∀ k r, 0 ≤ k < MAX_LABELS → finds p k r → finds pij k r).
Proof.
  intros Hwf Hlen Hi Hj.
  destruct (dsu_unite_spec p i j FIND_FUEL Hwf) as (pij & Hij & Hwfij & Hlij & Hrij);
    [lia|lia|unfold FIND_FUEL; lia|].
  destruct (dsu_unite_spec p j i FIND_FUEL Hwf) as (pji & Hji & Hwfji & Hlji & Hrji);
    [lia|lia|unfold FIND_FUEL; lia|].
  exists pij, pji. do 4 (split; [done|]).
  assert (Z.of_nat (length pij) = MAX_LABELS) as Hl1 by lia.
  assert (Z.of_nat (length pji) = MAX_LABELS) as Hl2 by lia.
  assert (∀ k, root pij k = root pji k) as Hsame.
  { intros k. rewrite Hrij, Hrji. rewrite Z.max_comm, Z.min_comm. done. }
  split; [|split; [|split; [|split]]].
  - intros k r Hk. rewrite !finds_iff_root by done. by rewrite Hsame.
  - exists (root pij i). split; [by apply finds_root|].
    apply finds_iff_root; [done..|]. rewrite !Hrij.
    destruct (Z.max_spec (root p i) (root p j)) as [[? ->]|[? ->]];
      destruct (Z.min_spec (root p i) (root p j)) as [[? ->]|[? ->]];
      repeat (destruct (decide _)); lia.
  - intros k r r' Hk Hr Hr'. apply finds_iff_root in Hr; [|done..].
    apply finds_iff_root in Hr'; [|done..]. subst r r'. rewrite Hrij.
    destruct (decide (root p k = _)) as [->|]; lia.
  - intros a b r Ha Hb Hra Hrb. apply finds_iff_root in Hra; [|done..].
    apply finds_iff_root in Hrb; [|done..].
    exists (root pij a). split; [by apply finds_root|].
    apply finds_iff_root; [done..|]. rewrite !Hrij. by rewrite <- Hra, <- Hrb.
  - intros (r0 & Hri & Hrj) k r Hk Hr.
    apply finds_iff_root in Hri; [|done..]. apply finds_iff_root in Hrj; [|done..].
    apply finds_iff_root in Hr; [|done..]. apply finds_iff_root; [done..|].
    subst. rewrite Hrij. rewrite <- Hrj. rewrite Z.max_id, Z.min_id.
    destruct (decide _); done.
Qed.

Lemma dsu_unite_symmetric_witness :
  ∃ pij pji,
    dsu_unite FIND_FUEL (seqZ 0 MAX_LABELS) 9 4 = Some pij ∧
    dsu_unite FIND_FUEL (seqZ 0 MAX_LABELS) 4 9 = Some pji ∧
    ∃ r, finds pij 9 r ∧ finds pij 4 r.
Proof.
  destruct (dsu_unite_symmetric (seqZ 0 MAX_LABELS) 9 4)
    as (pij & pji & H1 & H2 & _ & _ & _ & H3 & _).
  - apply dsu_wf_init.
  - reflexivity.
  - unfold MAX_LABELS. lia.
  - unfold MAX_LABELS. lia.
  - exists pij, pji. split; [exact H1|]. split; [exact H2|exact H3].
Defined.


(** Drawing both eyes never faults on a texture that is large enough. *)
Lemma draw_eyes_total tex returned parent ofs :
  texture_ok tex → ∃ o, draw_eyes tex returned parent ofs = Some o.
Proof.
  intros Hok. destruct ofs as [[xl xr] y]. unfold draw_eyes.
  destruct (drawEye_pixels tex xl y Hok) as (l & -> & _).
  destruct (drawEye_pixels tex xr y Hok) as (r & -> & _).
  simpl. eauto.
Qed.

(** X15: with a texture that is large enough and well-formed frames, an
    iteration of [loop] can only go wrong in one place: the conversion of
    an offset to [int], after the detection ran on an RGB565 frame.  The
    detection itself and the drawing never fault, and no fault is possible
    when there is no frame or the format is wrong. *)
Theorem loop_fault_is_a_conversion (tex : eye_texture)
    (capture : option camera_fb_t) (parent : list Z) :
  texture_ok tex →
  (∀ fb, capture = Some fb → frame_ok fb) →
  Z.of_nat (length parent) = MAX_LABELS →
  loop tex capture parent = None →
  ∃ fb found,
    capture = Some fb ∧ format fb = PIXFORMAT_RGB565 ∧
    find_light_source fb parent no_light = Some found ∧
    eye_offsets 120 (out_result found)
      (fdiv (float_of_int (width fb)) (float_of_int (height fb))) = None.
Proof.
  intros Hok Hfb Hplen Hloop. unfold loop in Hloop.
  destruct capture as [fb|].
  - destruct (decide (format fb = PIXFORMAT_RGB565)) as [Hfmt|Hfmt].
    + destruct (find_light_source_state fb parent no_light (Hfb fb eq_refl) Hfmt Hplen)
        as (found & st & nl & Hrun & _).
      rewrite Hrun in Hloop. cbn [mbind option_bind] in Hloop.
      exists fb, found. do 3 (split; [done|]).
      destruct (eye_offsets 120 (out_result found) _) as [ofs|]; [|done].
      cbn [mbind option_bind] in Hloop.
      destruct (draw_eyes_total tex true (out_parent found) ofs Hok) as [o Ho].
      congruence.
    + rewrite eye_offsets_no_light in Hloop by auto. cbn [mbind option_bind] in Hloop.
      destruct (draw_eyes_total tex true parent (120, 120, 120) Hok) as [o Ho].
      congruence.
  - rewrite eye_offsets_no_light in Hloop by auto. cbn [mbind option_bind] in Hloop.
    destruct (draw_eyes_total tex false parent (120, 120, 120) Hok) as [o Ho].
    congruence.
Qed.

(** ** The properties at concrete inputs *)




Lemma loop_without_frame_witness :
  ∃ o, loop sample_texture (Some sample_jpeg) (replicate 256 0) = Some o ∧
       eyes_centred o ∧ frame_returned o = true.
Proof.
  destruct (loop_without_frame sample_texture (Some sample_jpeg) (replicate 256 0))
    as (o & v & H1 & H2 & _ & H3 & _).
  - solve_texture_ok.
  - intros fb [= <-]. discriminate.
  - exists o. split; [exact H1|]. split; [exact H2|exact H3].
Defined.

Lemma loop_detection_failed_witness :
  ∃ o, loop sample_texture (Some sample_dark) (replicate 256 0) = Some o ∧
       eyes_centred o.
Proof.
  assert (∃ found, find_light_source sample_dark (replicate 256 0) no_light =
                     Some found ∧ ret found = -1) as (found & Hf & Hr).
  { vm_compute. eexists. split; reflexivity. }
  destruct (loop_detection_failed sample_texture sample_dark (replicate 256 0) found)
    as (o & v & H1 & H2 & _).
  - solve_texture_ok.
  - reflexivity.
  - exact Hf.
  - exact Hr.
  - reflexivity.
  - exists o. split; [exact H1|exact H2].
Defined.

Lemma loop_listings_frame_return_witness :
  ∃ o1 o2,
    loop sample_texture (Some sample_jpeg) (replicate 256 0) = Some o1 ∧
    loop_second_listing sample_texture (Some sample_jpeg) (replicate 256 0) = Some o2 ∧
    frame_returned o1 = true ∧ frame_returned o2 = false.
Proof.
  destruct (loop_listings_frame_return sample_texture sample_jpeg (replicate 256 0))
    as (o1 & o2 & H1 & H2 & H3 & H4 & _).
  - solve_texture_ok.
  - discriminate.
  - exists o1, o2. split; [exact H1|]. split; [exact H2|]. split; [exact H3|exact H4].
Defined.

Lemma find_light_source_outcome_witness :
  ∃ o, find_light_source sample_frame (replicate 256 0) no_light = Some o ∧
       length (buf (out_fb o)) = length (buf sample_frame).
Proof.
  destruct (find_light_source_outcome sample_frame (replicate 256 0) no_light)
    as (o & H1 & _ & _ & _ & _ & H2 & _).
  - solve_frame_ok.
  - reflexivity.
  - reflexivity.
  - exists o. split; [exact H1|exact H2].
Defined.

Lemma find_light_source_consumes_buffer_witness :
  ∃ o1 o2,
    find_light_source sample_frame (replicate 256 0) no_light = Some o1 ∧
    find_light_source (out_fb o1) (out_parent o1) (out_result o1) = Some o2 ∧
    ret o2 = -1.
Proof.
  destruct (find_light_source_consumes_buffer sample_frame (replicate 256 0) no_light)
    as (o1 & o2 & H1 & H2 & H3 & _).
  - solve_frame_ok.
  - reflexivity.
  - reflexivity.
  - exists o1, o2. split; [exact H1|]. split; [exact H2|exact H3].
Defined.

(** The sample frame holds one blob of four pixels, found at the centre of
    its block. *)
Lemma find_light_source_sample :
  ∃ o, find_light_source sample_frame (replicate 256 0) no_light = Some o ∧
       ret o = 0 ∧ result_pixel_count (out_result o) = 4 ∧
       buf (out_fb o) = [0; 0; 0; 0; 0; 1; 1; 0; 0; 1; 1; 0].
Proof. vm_compute. eexists. repeat split; reflexivity. Qed.

Lemma loop_fault_is_a_conversion_witness :
  ∃ fb found,
    Some sample_empty = Some fb ∧ format fb = PIXFORMAT_RGB565 ∧
    find_light_source fb (replicate 256 0) no_light = Some found ∧
    eye_offsets 120 (out_result found)
      (fdiv (float_of_int (width fb)) (float_of_int (height fb))) = None.
Proof.
  apply (loop_fault_is_a_conversion sample_texture (Some sample_empty) (replicate 256 0)).
  - solve_texture_ok.
  - intros fb [= <-]. solve_frame_ok.
  - reflexivity.
  - assert (∃ found, find_light_source sample_empty (replicate 256 0) no_light =
                       Some found ∧ out_result found = no_light) as (found & Hf & Hr).
    { vm_compute. eexists. split; reflexivity. }
    unfold loop. rewrite decide_True by reflexivity. rewrite Hf.
    cbn [mbind option_bind]. rewrite Hr. reflexivity.
Defined.
